(** * Kruskal-Wallis H test calculator: the computation behind [main.py]

    The script reads one list of numbers and one label per group, checks the
    group sizes, and hands the non-empty groups to [scipy.stats.kruskal]; it
    then ranks the pooled values with pandas ([Series.rank]) and averages the
    ranks per label ([groupby('Group')['Rank'].mean()]).

    The embedding follows [main.py] function by function.  Python floats are
    [pyfloat]: a finite value is an exact rational (rounding is not modelled),
    and the three non-finite values are kept because [float()] parses the
    texts "inf", "-inf" and "nan".  Exceptions are the [Raise] results of a
    small error monad. *)

From Stdlib Require Import String Ascii.
From Stdlib Require OrderedTypeEx DecimalString Qcanon.
From Stdlib Require Import List Arith ZArith QArith Qreduction Lia Bool.
From Stdlib Require Import Permutation Sorted Lqa.
Import ListNotations.
Close Scope Q_scope.

(* ================================================================== *)
(** * Python values *)

Inductive pyfloat : Type :=
| NegInf
| Finite (q : Q)
| PosInf
| NaN.

Definition is_nan (v : pyfloat) : bool :=
  match v with NaN => true | _ => false end.

Definition is_finite (v : pyfloat) : bool :=
  match v with Finite _ => true | _ => false end.

(** [a == b] on floats: NaN equals nothing, not even itself. *)
Definition flt_eqb (a b : pyfloat) : bool :=
  match a, b with
  | NegInf, NegInf => true
  | PosInf, PosInf => true
  | Finite x, Finite y => Qeq_bool x y
  | _, _ => false
  end.

(** [a < b] on floats: every comparison with NaN is false. *)
Definition flt_ltb (a b : pyfloat) : bool :=
  match a, b with
  | NaN, _ | _, NaN => false
  | NegInf, NegInf => false
  | NegInf, _ => true
  | Finite x, Finite y => negb (Qle_bool y x)
  | Finite _, PosInf => true
  | _, _ => false
  end.

Definition flt_leb (a b : pyfloat) : bool := flt_ltb a b || flt_eqb a b.

(** The spec's two error kinds, and the [IndexError] of [group_names[i]]. *)
Inductive error : Type :=
| InvalidInput (msg : string)
| DegenerateInput (msg : string)
| IndexError (msg : string).

Inductive pyresult (A : Type) : Type :=
| Return (a : A)
| Raise (e : error).

Arguments Return {A} a.

Arguments Raise {A} e.

Definition bind {A B : Type} (m : pyresult A) (k : A -> pyresult B) : pyresult B :=
  match m with
  | Return a => k a
  | Raise e => Raise e
  end.

Notation "x <- m ;; k" := (bind m (fun x => k))
  (at level 61, m at next level, right associativity).

(** [len(g) > 0] *)
Definition nonempty {A : Type} (g : list A) : bool :=
  match g with [] => false | _ :: _ => true end.

Definition Qsum (l : list Q) : Q := fold_right Qplus 0%Q l.

Definition Zsum (l : list Z) : Z := fold_right Z.add 0%Z l.

(* ================================================================== *)
(** * The rank engine (library code: pandas [Series.rank], scipy [rankdata]) *)

(** An observation of the pool: its row number and its value. *)
Abbreviation observation := (nat * pyfloat)%type.

Definition pool_rows (values : list pyfloat) : list observation :=
  combine (seq 0 (length values)) values.

Definition not_nan_obs (o : observation) : bool := negb (is_nan (snd o)).

(** Stable insertion sort by value, ascending. *)
Fixpoint insert_obs (o : observation) (s : list observation) : list observation :=
  match s with
  | [] => [o]
  | x :: tl => if flt_leb (snd o) (snd x) then o :: x :: tl
               else x :: insert_obs o tl
  end.

Fixpoint sort_obs (l : list observation) : list observation :=
  match l with
  | [] => []
  | o :: tl => insert_obs o (sort_obs tl)
  end.

(** The maximal runs of equal values of a sorted pool (the spec's TieGroups). *)
Fixpoint tie_groups (s : list observation) : list (list observation) :=
  match s with
  | [] => []
  | o :: tl =>
      match tie_groups tl with
      | (x :: g) :: gs =>
          if flt_eqb (snd o) (snd x) then (o :: x :: g) :: gs
          else [o] :: (x :: g) :: gs
      | gs => [o] :: gs
      end
  end.

(** The arithmetic mean of the positional ranks [p+1 .. p+t]. *)
Definition mean_position (p t : nat) : Q :=
  Qred (inject_Z (Z.of_nat (list_sum (seq (S p) t))) / inject_Z (Z.of_nat t)).

(** Walk the tie groups in order; [p] observations precede the current one. *)
Fixpoint assign_ranks (p : nat) (gs : list (list observation))
  : list (observation * Q) :=
  match gs with
  | [] => []
  | g :: rest =>
      map (fun o => (o, mean_position p (length g))) g
        ++ assign_ranks (p + length g) rest
  end.

(** Modelled from the spec: the ranking step is library code (pandas
    [Series.rank], scipy [rankdata]) and is not under src/.  Spec 4.1, steps
    2-4: tag each pooled value, sort by value (stable), give the positions
    1..N, and give every member of a maximal run of equal values the mean of
    the positions of the run.  NaN values are left out of the ranking (pandas
    [na_option='keep']). *)
Definition ranked_table (values : list pyfloat) : list (observation * Q) :=
  assign_ranks 0 (tie_groups (sort_obs (filter not_nan_obs (pool_rows values)))).

Fixpoint lookup_row (i : nat) (tbl : list (observation * Q)) : option Q :=
  match tbl with
  | [] => None
  | ((j, _), r) :: tl => if Nat.eqb i j then Some r else lookup_row i tl
  end.

(** Modelled from the spec: [Series.rank()] of pandas (main.py:186), not under
    src/.  The rank of each row, in row order; a NaN row has no rank ([None]
    stands for the NaN pandas stores there). *)
Definition rank (values : list pyfloat) : list (option Q) :=
  let tbl := ranked_table values in
  map (fun i => lookup_row i tbl) (seq 0 (length values)).

(** Modelled from the spec: [rankdata] of scipy, used inside [kruskal] on a
    pool that holds no NaN, so that every row has a rank. *)
Definition rankdata (values : list pyfloat) : list Q :=
  map (fun r => match r with Some q => q | None => 0%Q end) (rank values).

(** Spec 4.1 step 5: the term [t^3 - t] of every tie group of size [t > 1]. *)
Definition tie_terms (gs : list (list observation)) : list Z :=
  map (fun g => (Z.of_nat (length g) ^ 3 - Z.of_nat (length g))%Z)
      (filter (fun g => Nat.ltb 1 (length g)) gs).

(** Modelled from the spec: [tiecorrect] of scipy, not under src/.  Spec 4.2
    step 2: [C = 1 - sum (t^3 - t) / (N^3 - N)]; the library returns 1 for a
    pool of fewer than two values. *)
Definition tiecorrect (values : list pyfloat) : Q :=
  let n := Z.of_nat (length values) in
  if (n <? 2)%Z then 1%Q
  else (1 - inject_Z (Zsum (tie_terms (tie_groups (sort_obs (pool_rows values)))))
            / inject_Z (n ^ 3 - n))%Q.

(** [ranked[j[i]:j[i+1]]]: cut the pooled ranks back into the samples. *)
Fixpoint split_by (sizes : list nat) (l : list Q) : list (list Q) :=
  match sizes with
  | [] => []
  | n :: tl => firstn n l :: split_by tl (skipn n l)
  end.

(** The rank sum [R_i] of every sample. *)
Definition rank_sums (samples : list (list pyfloat)) : list Q :=
  map Qsum (split_by (map (@length pyfloat) samples) (rankdata (concat samples))).

(** [sum_i R_i^2 / n_i] *)
Definition ssbn (samples : list (list pyfloat)) : Q :=
  Qsum (map (fun Rn => (fst Rn * fst Rn / inject_Z (Z.of_nat (snd Rn)))%Q)
            (combine (rank_sums samples) (map (@length pyfloat) samples))).

(** Spec 4.2 step 1, the raw statistic. *)
Definition h_raw (samples : list (list pyfloat)) : Q :=
  let n := inject_Z (Z.of_nat (length (concat samples))) in
  (12 / (n * (n + 1)) * ssbn samples - 3 * (n + 1))%Q.

(* ================================================================== *)
(** * pandas [groupby('Group')['Rank'].mean().reset_index()] *)

Record row : Type := mkRow {
  Value : pyfloat;
  Group : string;
  Rank : option Q
}.

(** Insert a key in a strictly ascending list of keys (code-point order). *)
Fixpoint insert_key (k : string) (s : list string) : list string :=
  match s with
  | [] => [k]
  | x :: tl =>
      match String.compare k x with
      | Lt => k :: x :: tl
      | Eq => x :: tl
      | Gt => x :: insert_key k tl
      end
  end.

(** The group keys: [groupby] has [sort=True], one key per distinct label,
    ascending. *)
Definition group_keys (labels : list string) : list string :=
  fold_right insert_key [] labels.

Fixpoint somes (l : list (option Q)) : list Q :=
  match l with
  | [] => []
  | Some q :: tl => q :: somes tl
  | None :: tl => somes tl
  end.

(** [mean()] skips NaN; the mean of no value at all is NaN. *)
Definition mean (l : list (option Q)) : option Q :=
  match somes l with
  | [] => None
  | xs => Some (Qred (Qsum xs / inject_Z (Z.of_nat (length xs))))
  end.

(** Library code, not under src/: pandas [groupby(..).mean().reset_index()]
    (main.py:187), called with its defaults ([sort=True], NaN skipped): one
    row per distinct label, the labels in ascending order, each with the mean
    of the ranks of the rows carrying it. *)
Definition groupby_mean (rows : list row) : list (string * option Q) :=
  map (fun k =>
         (k, mean (map Rank (filter (fun r => String.eqb (Group r) k) rows))))
      (group_keys (map Group rows)).

(* ================================================================== *)
(** * [main.py] *)

Record results : Type := mkResults {
  h_stat : pyfloat;
  p_val : pyfloat;
  df : Z;
  significant : bool;
  mean_ranks : list (string * option Q);
  all_data : list row
}.

Fixpoint enumerate_from {A : Type} (i : nat) (l : list A) : list (nat * A) :=
  match l with
  | [] => []
  | x :: tl => (i, x) :: enumerate_from (S i) tl
  end.

Definition enumerate {A : Type} (l : list A) : list (nat * A) := enumerate_from 0 l.

(** main.py:166 *)
Definition valid_groups (group_data : list (list pyfloat)) : list (list pyfloat) :=
  filter nonempty group_data.

(** main.py:167; [group_names[i]] raises [IndexError] past the end. *)
Fixpoint valid_names_of (pairs : list (nat * list pyfloat)) (group_names : list string)
  : pyresult (list string) :=
  match pairs with
  | [] => Return []
  | (i, g) :: tl =>
      if nonempty g then
        match nth_error group_names i with
        | Some nm => rest <- valid_names_of tl group_names ;; Return (nm :: rest)
        | None => Raise (IndexError "list index out of range")
        end
      else valid_names_of tl group_names
  end.

Definition valid_names (group_data : list (list pyfloat)) (group_names : list string)
  : pyresult (list string) :=
  valid_names_of (enumerate group_data) group_names.

(** main.py:173-178, the two accumulators of the loop. *)
Definition pooled_data (vg : list (list pyfloat)) : list pyfloat :=
  flat_map (fun ig => snd ig) (enumerate vg).

Definition group_indices (vg : list (list pyfloat)) : list nat :=
  flat_map (fun ig => repeat (fst ig) (length (snd ig))) (enumerate vg).

(** main.py:180-186, the frame [ranks] with its three columns. *)
Definition ranks_frame (vg : list (list pyfloat)) (vn : list string) : list row :=
  let data := pooled_data vg in
  let labels := map (fun i => nth i vn EmptyString) (group_indices vg) in
  map (fun vlr => mkRow (fst (fst vlr)) (snd (fst vlr)) (snd vlr))
      (combine (combine data labels) (rank data)).

(** What the text area of one tab held (main.py:115-132): nothing, a text
    whose every token [float()] accepts, or a text with a token it refuses. *)
Inductive tab_text : Type :=
| NoText
| Numbers (group : list pyfloat)
| NotNumbers.

(** The groups one tab appends to [group_data].  A text with no token at all
    (blanks, commas) appends its empty group and then, [min(group)] raising
    [ValueError], the handler appends a second one. *)
Definition tab_groups (text : tab_text) : list (list pyfloat) :=
  match text with
  | NoText => [[]]
  | Numbers group => if nonempty group then [group] else [[]; []]
  | NotNumbers => [[]]
  end.

(** main.py:106-132, the loop over the tabs. *)
Fixpoint read_tabs (tabs : list (string * tab_text))
  : list (list pyfloat) * list string :=
  match tabs with
  | [] => ([], [])
  | (name, text) :: tl =>
      let (group_data, group_names) := read_tabs tl in
      (tab_groups text ++ group_data, name :: group_names)
  end.

Section KruskalWallis.

(** The chi-square survival function [Q(x, df)], a collaborator (spec 6). *)
Variable chi2_sf : Q -> Z -> Q.

(** Modelled from the spec: [scipy.stats.kruskal] (main.py:169), not under
    src/.  Spec 4.2 steps 1-5: [H = H_raw / C], failing when [C = 0] (the
    spec's [DegenerateInput]), and [p = Q(H, k - 1)].  The guards come in the
    order of the spec: the number of samples is tested first, then an empty
    sample or a NaN value gives NaN for both results ([nan_policy] is
    'propagate'); there is no test of finiteness, an infinite value is
    ranked like any other.  What this model does not carry over from the
    library: the library looks for NaN before it counts its samples, which
    differs from the order here on fewer than two samples holding a NaN
    (input that [main] never passes on, main.py:142-145); finite numbers are
    exact rationals here and rounded doubles there; and whether [C = 0]
    raises depends on the version of the library. *)
Definition kruskal (samples : list (list pyfloat)) : pyresult (pyfloat * pyfloat) :=
  if Nat.ltb (length samples) 2 then
    Raise (InvalidInput "Need at least two groups in stats.kruskal()")
  else if existsb (fun s => negb (nonempty s)) samples then Return (NaN, NaN)
  else if existsb (existsb is_nan) samples then Return (NaN, NaN)
  else
    let ties := tiecorrect (concat samples) in
    if Qeq_bool ties 0 then
      Raise (DegenerateInput "All numbers are identical in kruskal")
    else
      let h := Qred (h_raw samples / ties) in
      Return (Finite h, Finite (chi2_sf h (Z.of_nat (length samples) - 1))).

(** main.py:164-199 *)
Definition calculate_kruskal_wallis
    (group_data : list (list pyfloat)) (group_names : list string)
    (alpha : Q) (show_details : bool) : pyresult results :=
  let vg := valid_groups group_data in
  vn <- valid_names group_data group_names ;;
  hp <- kruskal vg ;;
  let dof := (Z.of_nat (length vg) - 1)%Z in
  let ranks := ranks_frame vg vn in
  let means := groupby_mean ranks in
  let sig := flt_ltb (snd hp) (Finite alpha) in
  Return (mkResults (fst hp) (snd hp) dof sig means ranks).

(** main.py:140-154, the handler of the "Run Analysis" button up to and
    including the call of [calculate_kruskal_wallis]: the two [st.error]
    branches are the spec's [InvalidInput], and [Return r] is the value
    handed to [display_results].  The drawing done by [display_results]
    (main.py:157-158, seaborn and matplotlib) is not part of this model, nor
    are its failures. *)
Definition run_analysis
    (group_data : list (list pyfloat)) (group_names : list string)
    (alpha : Q) (show_details : bool) : pyresult results :=
  if Nat.ltb (length (filter nonempty group_data)) 2 then
    Raise (InvalidInput "Please enter data for at least 2 groups.")
  else if negb (forallb nonempty group_data) then
    Raise (InvalidInput "All groups must have at least one value.")
  else calculate_kruskal_wallis group_data group_names alpha show_details.

(** main.py:106-154, the page layout apart: read the tabs, then the button,
    up to the value handed to [display_results]. *)
Definition main (tabs : list (string * tab_text)) (alpha : Q) (show_details : bool)
  : pyresult results :=
  let (group_data, group_names) := read_tabs tabs in
  run_analysis group_data group_names alpha show_details.

End KruskalWallis.

(* ================================================================== *)
(** * Measures and predicates of the statements *)

Definition valued (v : pyfloat) : Prop := is_nan v = false.

Definition no_nan (values : list pyfloat) : Prop := Forall valued values.

Definition obs_le (a b : observation) : Prop := flt_leb (snd a) (snd b) = true.

Definition obs_valued (o : observation) : Prop := valued (snd o).

(** How many pooled values are below [v], and how many equal it. *)
Definition count_lt (v : pyfloat) (l : list pyfloat) : nat :=
  length (filter (fun x => flt_ltb x v) l).

Definition count_eq (v : pyfloat) (l : list pyfloat) : nat :=
  length (filter (fun x => flt_eqb x v) l).

(** What the tie groups of a sorted pool look like: no group is empty, the
    members of a group share their value, and every group lies strictly below
    all later ones. *)
Fixpoint groups_ok (gs : list (list observation)) : Prop :=
  match gs with
  | [] => True
  | g :: rest =>
      g <> []
      /\ (forall a b, In a g -> In b g -> flt_eqb (snd a) (snd b) = true)
      /\ (forall a b, In a g -> In b (concat rest) -> flt_ltb (snd a) (snd b) = true)
      /\ groups_ok rest
  end.

Definition kept_rows (values : list pyfloat) : list observation :=
  sort_obs (filter not_nan_obs (pool_rows values)).

(** The mid-rank of a value [v] of the pool, by counting: the run of [v]
    spans the positions [#below + 1 .. #below + #equal]. *)
Definition rank_by_counts (values : list pyfloat) (v : pyfloat) : option Q :=
  if is_nan v then None
  else Some (mean_position (count_lt v values) (count_eq v values)).

(** The ranks of a pool without NaN, by counting. *)
Definition midrank (values : list pyfloat) (v : pyfloat) : Q :=
  mean_position (count_lt v values) (count_eq v values).

(** The tie census by counting: a value that occurs [t] times contributes
    [t^2 - 1] at each occurrence, [t^3 - t] in all. *)
Definition tie_sum (values : list pyfloat) : Z :=
  Zsum (map (fun v => (Z.of_nat (count_eq v values) ^ 2 - 1)%Z) values).

(** The contribution [R^2 / n] of one sample to [ssbn]. *)
Definition sample_term (pool : list pyfloat) (g : list pyfloat) : Q :=
  (Qsum (map (midrank pool) g) * Qsum (map (midrank pool) g)
   / inject_Z (Z.of_nat (length g)))%Q.

(** All pooled values are distinct. *)
Fixpoint all_distinct (l : list pyfloat) : bool :=
  match l with
  | [] => true
  | v :: tl => forallb (fun w => negb (flt_eqb v w)) tl && all_distinct tl
  end.

(** Every pooled value is tied to every other. *)
Definition all_tied (l : list pyfloat) : bool :=
  match l with
  | [] => true
  | v :: _ => forallb (fun w => flt_eqb v w) l
  end.

Definition all_finite (group_data : list (list pyfloat)) : bool :=
  forallb (forallb is_finite) group_data.

(** The spec's valid input: at least two non-empty groups, finite values. *)
Definition valid_input (group_data : list (list pyfloat)) : bool :=
  Nat.leb 2 (length (filter nonempty group_data)) && all_finite group_data.

(** The untied statistic of spec 4.2 step 1 and P1, from the rank sums [Rs]
    and the sizes [ns] of the groups. *)
Definition classical_H (Rs : list Q) (ns : list nat) : Q :=
  let n := inject_Z (Z.of_nat (list_sum ns)) in
  (12 / (n * (n + 1))
   * Qsum (map (fun Rn => (fst Rn * fst Rn / inject_Z (Z.of_nat (snd Rn)))%Q)
               (combine Rs ns))
   - 3 * (n + 1))%Q.

(** The (group, name) pairs that survive the two filters of main.py:166-167. *)
Definition kept_pairs (group_data : list (list pyfloat)) (group_names : list string)
  : list (list pyfloat * string) :=
  filter (fun gn => nonempty (fst gn)) (combine group_data group_names).

(** Every value of every pair, with the name of its pair. *)
Definition labelled (pairs : list (list pyfloat * string)) : list (pyfloat * string) :=
  flat_map (fun gn => map (fun v => (v, snd gn)) (fst gn)) pairs.

(** Code-point order on labels. *)
Definition string_lt (a b : string) : Prop := String.compare a b = Lt.

(** What the caller reads off a result, the frame of rows apart. *)
Definition statistics (res : pyresult results)
  : pyresult (pyfloat * pyfloat * Z * bool * list (string * option Q)) :=
  r <- res ;; Return (h_stat r, p_val r, df r, significant r, mean_ranks r).

(* ================================================================== *)
(** * Inputs of the concrete runs *)

(** A rational stand-in for the survival function, used to run examples:
    Markov's bound [min 1 (df / x)]. *)
Definition sf_markov (x : Q) (dof : Z) : Q :=
  if Qle_bool x (inject_Z dof) then 1%Q else (inject_Z dof / x)%Q.

Definition fin (l : list Q) : list pyfloat := map Finite l.

(** The data set of [return_example_data] (main.py:311-317). *)
Definition example_data : list (list pyfloat) :=
  [fin [8.5; 9.2; 9.6; 8.8; 9.1; 9.3]%Q;
   fin [7.5; 7.8; 8.2; 7.1; 7.3; 7.6]%Q;
   fin [6.5; 6.8; 6.2; 6.9; 6.4; 6.3]%Q].

Definition example_names : list string :=
  ["Treatment A"; "Treatment B"; "Control Group"]%string.

(** Three groups with a value shared across groups. *)
Definition ties_example : list (list pyfloat) :=
  [fin [1; 2; 2; 3]%Q; fin [2; 4; 5]%Q; fin [6; 7; 8]%Q].

(** Every value the same. *)
Definition identical_example : list (list pyfloat) :=
  [fin [5; 5; 5]%Q; fin [5; 5]%Q; fin [5; 5; 5; 5]%Q].

(** The second of three tabs left empty. *)
Definition gap_example : list (list pyfloat) :=
  [fin [1; 2]%Q; []; fin [3; 4]%Q].

Definition default_names : list string := ["Group 1"; "Group 2"; "Group 3"]%string.

(** A group with an infinite value: the text "1, inf". *)
Definition infinite_example : list (list pyfloat) :=
  [[Finite 1; PosInf]; fin [2; 3]%Q].

Definition two_groups : list (list pyfloat) := [fin [1; 2]%Q; fin [3; 4]%Q].

Definition two_names : list string := ["a"; "b"]%string.

(** A change of unit on the numbers, degrees Celsius to Fahrenheit; the
    infinities and NaN stay as they are. *)
Definition fahrenheit (v : pyfloat) : pyfloat :=
  match v with
  | Finite q => Finite (Qred ((9 # 5) * q + 32))
  | _ => v
  end.

(* ================================================================== *)
(** * [display_results] and the tabs *)

(** main.py:237-244, the frame [df_viz] behind the box and violin plots:
    for every (group, name) of [zip(group_data, group_names)] with a
    non-empty group, the rows of the group under its name are appended. *)
Definition df_viz (group_data : list (list pyfloat)) (group_names : list string)
  : list (pyfloat * string) :=
  fold_left
    (fun acc gn =>
       if nonempty (fst gn) then acc ++ map (fun v => (v, snd gn)) (fst gn)
       else acc)
    (combine group_data group_names) [].

(** A tab whose text gave at least one number. *)
Definition complete_tab (text : tab_text) : bool :=
  match text with Numbers group => nonempty group | _ => false end.

(** A tab whose text held separators and blanks only. *)
Definition blank_tab (text : tab_text) : bool :=
  match text with Numbers [] => true | _ => false end.

Definition tab_values (text : tab_text) : list pyfloat :=
  match text with Numbers group => group | _ => [] end.

(* ================================================================== *)
(** * The text of a tab and the session state *)

Definition comma : ascii := ","%char.

Definition newline : ascii := "010"%char.

(** [s.replace('\n', ',')] *)
Fixpoint replace_newline (s : string) : string :=
  match s with
  | EmptyString => EmptyString
  | String c tl =>
      String (if Ascii.eqb c newline then comma else c) (replace_newline tl)
  end.

(** [s.split(',')]: the pieces between the commas, the empty ones too; the
    empty text has one piece. *)
Fixpoint split_comma (s : string) : list string :=
  match s with
  | EmptyString => [EmptyString]
  | String c tl =>
      if Ascii.eqb c comma then EmptyString :: split_comma tl
      else match split_comma tl with
           | w :: ws => String c w :: ws
           | [] => [String c EmptyString]
           end
  end.

(** The tokens of a text area (main.py:124). *)
Definition tokens (group_input : string) : list string :=
  split_comma (replace_newline group_input).

(** [f"{i}"] for a natural number. *)
Definition decimal (i : nat) : string :=
  DecimalString.NilZero.string_of_uint (Nat.to_uint i).

(** The keys [f"name_{i}"] and [f"group_{i}"] of the widgets of tab [i]. *)
Definition name_key (i : nat) : string := ("name_" ++ decimal i)%string.

Definition group_key (i : nat) : string := ("group_" ++ decimal i)%string.

(** [st.session_state], from keys to texts. *)
Definition session : Type := string -> option string.

(** [st.session_state[key] = value] *)
Definition set_item (state : session) (key value : string) : session :=
  fun k => if String.eqb k key then Some value else state k.

Section Builtins.

(** [str.strip], [float] ([None] when it raises [ValueError]) and [str] on
    floats: Python built-ins, taken as they are. *)
Variable strip : string -> string.
Variable float : string -> option pyfloat.
Variable str : pyfloat -> string.

(** main.py:124, the comprehension
    [[float(x.strip()) for x in ... if x.strip()]]. *)
Fixpoint parse_tokens (toks : list string) : option (list pyfloat) :=
  match toks with
  | [] => Some []
  | x :: tl =>
      if String.eqb (strip x) EmptyString then parse_tokens tl
      else match float (strip x) with
           | None => None
           | Some v =>
               match parse_tokens tl with
               | None => None
               | Some vs => Some (v :: vs)
               end
           end
  end.

(** main.py:122-132, what one text area gives. *)
Definition parse_group (group_input : string) : tab_text :=
  if String.eqb group_input EmptyString then NoText
  else match parse_tokens (tokens group_input) with
       | Some group => Numbers group
       | None => NotNumbers
       end.

(** main.py:309-324, the loop of [return_example_data] on the session
    state: the name and the joined values of each example group. *)
Definition return_example_data (state : session) : session :=
  fold_left
    (fun st idn =>
       set_item (set_item st (name_key (fst idn)) (snd (snd idn)))
                (group_key (fst idn))
                (String.concat ", " (map str (fst (snd idn)))))
    (enumerate (combine example_data example_names)) state.

End Builtins.

(** Leading and trailing blanks removed: an instance of [strip] on texts
    whose only white space is the space character. *)
Fixpoint lstrip_spaces (s : string) : string :=
  match s with
  | String " " tl => lstrip_spaces tl
  | _ => s
  end.

Fixpoint rstrip_spaces (s : string) : string :=
  match s with
  | EmptyString => EmptyString
  | String c tl =>
      match c, rstrip_spaces tl with
      | " "%char, EmptyString => EmptyString
      | _, tl' => String c tl'
      end
  end.

Definition strip_spaces (s : string) : string := rstrip_spaces (lstrip_spaces s).

(** [float] and [str] on the whole numbers written in digits: instances
    for the concrete runs. *)
Definition float_digits (s : string) : option pyfloat :=
  match DecimalString.NilZero.uint_of_string s with
  | Some d => Some (Finite (inject_Z (Z.of_nat (Nat.of_uint d))))
  | None => None
  end.

Definition str_digits (v : pyfloat) : string :=
  match v with
  | Finite q => decimal (Z.to_nat (Qnum q))
  | _ => "nan"%string
  end.

(** A float whose text [str v] holds no separator and is read back by
    [float], with or without a blank in front. *)
Definition reads_back (strip : string -> string) (float : string -> option pyfloat)
    (str : pyfloat -> string) (v : pyfloat) : Prop :=
  str v <> EmptyString
  /\ tokens (str v) = [str v]
  /\ strip (str v) <> EmptyString
  /\ float (strip (str v)) = Some v
  /\ strip (String " " (str v)) = strip (str v).

(* ================================================================== *)
(** * The order on floats *)

Ltac flt_hyps :=
  repeat match goal with
         | H : negb _ = true |- _ => apply negb_true_iff in H
         | H : negb _ = false |- _ => apply negb_false_iff in H
         | H : _ || _ = true |- _ => apply orb_true_iff in H; destruct H
         | H : _ || _ = false |- _ => apply orb_false_iff in H; destruct H
         | H : Qeq_bool _ _ = true |- _ => apply Qeq_bool_iff in H
         | H : Qeq_bool _ _ = false |- _ => apply Qeq_bool_neq in H
         | H : Qle_bool _ _ = true |- _ => apply Qle_bool_iff in H
         | H : Qle_bool ?a ?b = false |- _ =>
             assert (~ (a <= b)%Q) by (rewrite <- Qle_bool_iff, H; discriminate);
             clear H
         end.

Ltac flt_goal :=
  repeat match goal with
         | |- negb _ = true => apply negb_true_iff
         | |- negb _ = false => apply negb_false_iff
         | |- _ || _ = false => apply orb_false_iff; split
         | |- ?x || _ = true => destruct x eqn:?; simpl; [reflexivity|]
         | |- Qeq_bool _ _ = true => apply Qeq_bool_iff
         | |- Qle_bool _ _ = true => apply Qle_bool_iff
         | |- Qle_bool ?a ?b = false =>
             destruct (Qle_bool a b) eqn:?; [exfalso | reflexivity]
         | |- Qeq_bool ?a ?b = false =>
             destruct (Qeq_bool a b) eqn:?; [exfalso | reflexivity]
         end.

(** Case analysis on the floats in sight, then linear arithmetic on Q. *)
Ltac flt_solve :=
  repeat match goal with
         | v : pyfloat |- _ => destruct v
         end;
  unfold valued, flt_leb in *; simpl in *;
  try discriminate; try reflexivity;
  flt_goal; flt_hyps; try discriminate; try lra.

Lemma flt_eqb_refl a : valued a -> flt_eqb a a = true.
Proof. intros; flt_solve. Qed.

Lemma flt_eqb_sym a b : flt_eqb a b = flt_eqb b a.
Proof.
  destruct (flt_eqb b a) eqn:E; flt_solve.
Qed.

Lemma flt_eqb_valued a b : flt_eqb a b = true -> valued a /\ valued b.
Proof. intros; split; flt_solve. Qed.

Lemma flt_eqb_trans a b c :
  flt_eqb a b = true -> flt_eqb b c = true -> flt_eqb a c = true.
Proof. intros; flt_solve. Qed.

Lemma flt_ltb_trans a b c :
  flt_ltb a b = true -> flt_ltb b c = true -> flt_ltb a c = true.
Proof. intros; flt_solve. Qed.

Lemma flt_ltb_not_eqb a b : flt_ltb a b = true -> flt_eqb a b = false.
Proof. intros; flt_solve. Qed.

Lemma flt_ltb_asym a b : flt_ltb a b = true -> flt_ltb b a = false.
Proof. intros; flt_solve. Qed.

Lemma flt_eqb_not_ltb a b : flt_eqb a b = true -> flt_ltb a b = false.
Proof. intros; flt_solve. Qed.

Lemma flt_eqb_ltb_l a b c :
  flt_eqb a b = true -> flt_ltb a c = flt_ltb b c.
Proof. intros; destruct (flt_ltb b c) eqn:E; flt_solve. Qed.

Lemma flt_eqb_ltb_r a b c :
  flt_eqb a b = true -> flt_ltb c a = flt_ltb c b.
Proof. intros; destruct (flt_ltb c b) eqn:E; flt_solve. Qed.

Lemma flt_eqb_eqb_r a b c :
  flt_eqb a b = true -> flt_eqb c a = flt_eqb c b.
Proof. intros; destruct (flt_eqb c b) eqn:E; flt_solve. Qed.

Lemma flt_leb_false a b :
  valued a -> valued b -> flt_leb a b = false -> flt_ltb b a = true.
Proof. intros; flt_solve. Qed.

Lemma flt_leb_ltb_trans a b c :
  flt_ltb a b = true -> flt_leb b c = true -> flt_ltb a c = true.
Proof. intros; flt_solve. Qed.

Lemma flt_leb_neq_ltb a b :
  flt_leb a b = true -> flt_eqb a b = false -> flt_ltb a b = true.
Proof. intros; flt_solve. Qed.

Lemma flt_trichotomy a b :
  valued a -> valued b ->
  flt_ltb a b = false -> flt_eqb a b = false -> flt_ltb b a = true.
Proof. intros; flt_solve. Qed.

(* ================================================================== *)
(** * Counting, sorting, tie groups *)

Lemma filter_length_all {A : Type} (f : A -> bool) (l : list A) :
  (forall x, In x l -> f x = true) -> length (filter f l) = length l.
Proof.
  induction l as [|a l IH]; simpl; intros H; [reflexivity|].
  rewrite (H a (or_introl eq_refl)); simpl. f_equal. apply IH; auto.
Qed.

Lemma filter_length_none {A : Type} (f : A -> bool) (l : list A) :
  (forall x, In x l -> f x = false) -> length (filter f l) = 0.
Proof.
  induction l as [|a l IH]; simpl; intros H; [reflexivity|].
  rewrite (H a (or_introl eq_refl)). apply IH; auto.
Qed.

Lemma filter_length_perm {A : Type} (f : A -> bool) (l l' : list A) :
  Permutation l l' -> length (filter f l) = length (filter f l').
Proof.
  induction 1; simpl; try congruence.
  - destruct (f x); simpl; congruence.
  - destruct (f x), (f y); reflexivity.
Qed.

Lemma count_lt_app v l1 l2 : count_lt v (l1 ++ l2) = count_lt v l1 + count_lt v l2.
Proof. unfold count_lt. now rewrite filter_app, length_app. Qed.

Lemma count_eq_app v l1 l2 : count_eq v (l1 ++ l2) = count_eq v l1 + count_eq v l2.
Proof. unfold count_eq. now rewrite filter_app, length_app. Qed.

Lemma count_lt_perm v l l' : Permutation l l' -> count_lt v l = count_lt v l'.
Proof. apply filter_length_perm. Qed.

Lemma count_eq_perm v l l' : Permutation l l' -> count_eq v l = count_eq v l'.
Proof. apply filter_length_perm. Qed.

Lemma count_eq_le v l : count_eq v l <= length l.
Proof. apply filter_length_le. Qed.

Lemma insert_obs_perm o s : Permutation (insert_obs o s) (o :: s).
Proof.
  induction s as [|x tl IH]; simpl; [reflexivity|].
  destruct (flt_leb (snd o) (snd x)); [reflexivity|].
  rewrite IH. apply perm_swap.
Qed.

Lemma sort_obs_perm l : Permutation (sort_obs l) l.
Proof.
  induction l as [|o tl IH]; simpl; [reflexivity|].
  rewrite insert_obs_perm. now constructor.
Qed.

Lemma insert_obs_sorted o s :
  obs_valued o -> Forall obs_valued s ->
  StronglySorted obs_le s -> StronglySorted obs_le (insert_obs o s).
Proof.
  intros Ho Hs Hsorted. induction Hsorted as [|x tl Htl IH Hx]; simpl.
  - repeat constructor.
  - inversion Hs as [|? ? Hvx Hvtl]; subst.
    destruct (flt_leb (snd o) (snd x)) eqn:E.
    + constructor; [constructor; assumption|].
      constructor; [exact E|].
      rewrite Forall_forall in *. intros y Hy. specialize (Hx y Hy).
      unfold obs_le in *. clear - E Hx.
      destruct o as [? a], x as [? b], y as [? c]; simpl in *.
      flt_solve.
    + constructor; [apply IH; assumption|].
      rewrite Forall_forall in *. intros y Hy.
      apply (Permutation_in _ (insert_obs_perm o tl)) in Hy.
      destruct Hy as [<-|Hy]; [|apply Hx; exact Hy].
      unfold obs_le. apply flt_leb_false in E; [|exact Ho|exact Hvx].
      unfold flt_leb. now rewrite E.
Qed.

Lemma sort_obs_valued l : Forall obs_valued l -> Forall obs_valued (sort_obs l).
Proof.
  intros H. rewrite Forall_forall in *. intros x Hx. apply H.
  now apply (Permutation_in _ (sort_obs_perm l)).
Qed.

Lemma sort_obs_sorted l : Forall obs_valued l -> StronglySorted obs_le (sort_obs l).
Proof.
  induction l as [|o tl IH]; simpl; intros H; [constructor|].
  inversion H; subst.
  apply insert_obs_sorted; auto using sort_obs_valued.
Qed.

Lemma tie_groups_concat s : concat (tie_groups s) = s.
Proof.
  induction s as [|o tl IH]; simpl; [reflexivity|].
  destruct (tie_groups tl) as [|[|x g] gs]; simpl in *.
  - now rewrite <- IH.
  - now rewrite <- IH.
  - destruct (flt_eqb (snd o) (snd x)); simpl; now rewrite <- IH.
Qed.

Lemma tie_groups_ok s :
  Forall obs_valued s -> StronglySorted obs_le s -> groups_ok (tie_groups s).
Proof.
  intros Hv Hs. induction Hs as [|o tl Htl IH Ho]; simpl; [exact I|].
  inversion Hv as [|? ? Hvo Hvtl]; subst. specialize (IH Hvtl).
  pose proof (tie_groups_concat tl) as Hcat.
  destruct (tie_groups tl) as [|[|x g] gs].
  - simpl. repeat split; try discriminate.
    + intros a b [<-|[]] [<-|[]]. now apply flt_eqb_refl.
    + intros a b _ [].
  - simpl in IH. destruct IH as [Hne _]. now elim Hne.
  - simpl in IH. destruct IH as (_ & Heq & Hlt & Hrest).
    assert (Hx : In x tl) by (rewrite <- Hcat; simpl; now left).
    destruct (flt_eqb (snd o) (snd x)) eqn:E.
    + assert (Hall : forall c, In c (o :: x :: g) -> flt_eqb (snd c) (snd x) = true).
      { intros c [<-|Hc]; [exact E|]. apply Heq; [exact Hc|now left]. }
      simpl. repeat split; try discriminate; try assumption.
      * intros a b Ha Hb. apply (flt_eqb_trans _ (snd x)); [now apply Hall|].
        rewrite flt_eqb_sym. now apply Hall.
      * intros a b Ha Hb. rewrite (flt_eqb_ltb_l _ _ (snd b) (Hall a Ha)).
        apply Hlt; [now left|exact Hb].
    + assert (Hox : flt_ltb (snd o) (snd x) = true).
      { apply flt_leb_neq_ltb; [|exact E].
        rewrite Forall_forall in Ho. now apply Ho. }
      simpl. repeat split; try discriminate; try assumption.
      * intros a b [<-|[]] [<-|[]]. now apply flt_eqb_refl.
      * intros a b [<-|[]] Hb.
        destruct Hb as [<-|Hb]; [exact Hox|].
        apply in_app_or in Hb. destruct Hb as [Hb|Hb].
        -- rewrite <- (flt_eqb_ltb_r _ _ (snd o) (Heq x b (or_introl eq_refl) (or_intror Hb))).
           exact Hox.
        -- apply (flt_ltb_trans _ _ _ Hox). apply Hlt; [now left|exact Hb].
Qed.

Lemma assign_ranks_fst p gs : map fst (assign_ranks p gs) = concat gs.
Proof.
  revert p. induction gs as [|g rest IH]; intros p; simpl; [reflexivity|].
  rewrite map_app, map_map, IH. simpl. now rewrite map_id.
Qed.

(** Every entry of the ranked table carries the mean of the positions
    [#below + 1 .. #below + #equal]. *)
Lemma assign_ranks_counts gs :
  groups_ok gs ->
  forall p o r, In (o, r) (assign_ranks p gs) ->
    r = mean_position (p + count_lt (snd o) (map snd (concat gs)))
                      (count_eq (snd o) (map snd (concat gs))).
Proof.
  induction gs as [|g rest IH]; simpl; intros Hok p o r Hin; [contradiction|].
  destruct Hok as (Hne & Heq & Hlt & Hrest).
  rewrite map_app, count_lt_app, count_eq_app.
  apply in_app_or in Hin. destruct Hin as [Hin|Hin].
  - apply in_map_iff in Hin. destruct Hin as (o' & E' & Ho).
    injection E' as Eo Er. subst o' r.
    unfold count_lt, count_eq.
    rewrite (filter_length_none (fun x => flt_ltb x (snd o)) (map snd g)).
    2:{ intros x Hx. apply in_map_iff in Hx. destruct Hx as (a & <- & Ha).
        apply flt_eqb_not_ltb. now apply Heq. }
    rewrite (filter_length_none (fun x => flt_ltb x (snd o)) (map snd (concat rest))).
    2:{ intros x Hx. apply in_map_iff in Hx. destruct Hx as (a & <- & Ha).
        apply flt_ltb_asym. now apply Hlt. }
    rewrite (filter_length_all (fun x => flt_eqb x (snd o)) (map snd g)).
    2:{ intros x Hx. apply in_map_iff in Hx. destruct Hx as (a & <- & Ha).
        now apply Heq. }
    rewrite (filter_length_none (fun x => flt_eqb x (snd o)) (map snd (concat rest))).
    2:{ intros x Hx. apply in_map_iff in Hx. destruct Hx as (a & <- & Ha).
        rewrite flt_eqb_sym. apply flt_ltb_not_eqb. now apply Hlt. }
    rewrite length_map. f_equal; lia.
  - assert (Ho : In o (concat rest)).
    { rewrite <- (assign_ranks_fst (p + length g) rest).
      apply in_map_iff. exists (o, r). now split. }
    rewrite (IH Hrest _ _ _ Hin).
    unfold count_lt at 2, count_eq at 2.
    rewrite (filter_length_all (fun x => flt_ltb x (snd o)) (map snd g)).
    2:{ intros x Hx. apply in_map_iff in Hx. destruct Hx as (a & <- & Ha).
        now apply Hlt. }
    rewrite (filter_length_none (fun x => flt_eqb x (snd o)) (map snd g)).
    2:{ intros x Hx. apply in_map_iff in Hx. destruct Hx as (a & <- & Ha).
        apply flt_ltb_not_eqb. now apply Hlt. }
    rewrite length_map. f_equal; lia.
Qed.

(* ================================================================== *)
(** * Ranks by counting *)

Lemma in_combine_seq (l : list pyfloat) : forall s i v,
  In (i, v) (combine (seq s (length l)) l) <->
  s <= i /\ nth_error l (i - s) = Some v.
Proof.
  induction l as [|a l IH]; intros s i v; simpl.
  - split; [contradiction|]. intros [_ H]. destruct (i - s); discriminate.
  - rewrite IH. split.
    + intros [[= <- <-]|[Hle Hn]].
      * split; [lia|]. now rewrite Nat.sub_diag.
      * split; [lia|]. replace (i - s) with (S (i - S s)) by lia. exact Hn.
    + intros [Hle Hn]. destruct (i - s) as [|k] eqn:E; simpl in Hn.
      * left. injection Hn as ->. f_equal. lia.
      * right. split; [lia|]. replace (i - S s) with k by lia. exact Hn.
Qed.

Lemma in_pool_rows values i v :
  In (i, v) (pool_rows values) <-> nth_error values i = Some v.
Proof.
  unfold pool_rows. rewrite in_combine_seq, Nat.sub_0_r.
  split; [now intros [_ H]|]. intros H; split; [lia|exact H].
Qed.

Lemma pool_rows_snd values : map snd (pool_rows values) = values.
Proof.
  unfold pool_rows. generalize 0.
  induction values as [|a l IH]; intros s; simpl; [reflexivity|].
  now rewrite IH.
Qed.

Lemma map_snd_filter_obs (f : pyfloat -> bool) (l : list observation) :
  map snd (filter (fun o => f (snd o)) l) = filter f (map snd l).
Proof.
  induction l as [|a l IH]; simpl; [reflexivity|].
  destruct (f (snd a)); simpl; now rewrite IH.
Qed.

Lemma filter_filter_length {A : Type} (f g : A -> bool) (l : list A) :
  (forall x, f x = true -> g x = true) ->
  length (filter f (filter g l)) = length (filter f l).
Proof.
  intros H. induction l as [|a l IH]; simpl; [reflexivity|].
  destruct (g a) eqn:G; simpl.
  - destruct (f a); simpl; now rewrite IH.
  - destruct (f a) eqn:F; [|exact IH].
    apply H in F. congruence.
Qed.

Lemma lookup_row_some i tbl r :
  lookup_row i tbl = Some r -> exists v, In ((i, v), r) tbl.
Proof.
  induction tbl as [|[[j w] q] tl IH]; simpl; [discriminate|].
  destruct (Nat.eqb i j) eqn:E.
  - intros [= <-]. apply Nat.eqb_eq in E. subst j. exists w. now left.
  - intros H. destruct (IH H) as [v Hv]. exists v. now right.
Qed.

Lemma lookup_row_none i tbl :
  lookup_row i tbl = None -> forall v, ~ In (i, v) (map fst tbl).
Proof.
  induction tbl as [|[[j w] q] tl IH]; simpl; [tauto|].
  destruct (Nat.eqb i j) eqn:E; [discriminate|].
  intros H v [[= Hj _]|Hin].
  - apply Nat.eqb_neq in E. congruence.
  - exact (IH H v Hin).
Qed.

Lemma kept_rows_perm values :
  Permutation (kept_rows values) (filter not_nan_obs (pool_rows values)).
Proof. apply sort_obs_perm. Qed.

Lemma kept_rows_values values :
  Permutation (map snd (kept_rows values)) (filter (fun v => negb (is_nan v)) values).
Proof.
  rewrite (Permutation_map snd (kept_rows_perm values)).
  unfold not_nan_obs.
  rewrite (map_snd_filter_obs (fun v => negb (is_nan v))), pool_rows_snd.
  reflexivity.
Qed.

Lemma kept_rows_valued values : Forall obs_valued (kept_rows values).
Proof.
  apply sort_obs_valued. apply Forall_forall. intros o Ho.
  apply filter_In in Ho. destruct Ho as [_ Ho].
  unfold not_nan_obs in Ho. unfold obs_valued, valued.
  now apply negb_true_iff in Ho.
Qed.

Lemma count_lt_kept v values :
  count_lt v (map snd (kept_rows values)) = count_lt v values.
Proof.
  rewrite (count_lt_perm v _ _ (kept_rows_values values)).
  apply filter_filter_length. intros x Hx. destruct x; simpl in *; congruence.
Qed.

Lemma count_eq_kept v values :
  count_eq v (map snd (kept_rows values)) = count_eq v values.
Proof.
  rewrite (count_eq_perm v _ _ (kept_rows_values values)).
  apply filter_filter_length. intros x Hx. destruct x; simpl in *; congruence.
Qed.

Lemma ranked_table_fst values : map fst (ranked_table values) = kept_rows values.
Proof.
  unfold ranked_table. rewrite assign_ranks_fst. apply tie_groups_concat.
Qed.

Lemma ranked_table_counts values o r :
  In (o, r) (ranked_table values) ->
  r = mean_position (count_lt (snd o) values) (count_eq (snd o) values).
Proof.
  intros Hin. unfold ranked_table in Hin.
  apply assign_ranks_counts in Hin.
  - rewrite tie_groups_concat in Hin. fold (kept_rows values) in Hin.
    now rewrite count_lt_kept, count_eq_kept in Hin.
  - apply tie_groups_ok.
    + apply kept_rows_valued.
    + apply sort_obs_sorted. apply Forall_forall. intros x Hx.
      apply filter_In in Hx. destruct Hx as [_ Hx].
      unfold not_nan_obs in Hx. now apply negb_true_iff in Hx.
Qed.

Lemma lookup_row_rank values i v :
  nth_error values i = Some v ->
  lookup_row i (ranked_table values) = rank_by_counts values v.
Proof.
  intros Hnth. unfold rank_by_counts.
  destruct (lookup_row i (ranked_table values)) as [r|] eqn:L.
  - destruct (lookup_row_some _ _ _ L) as [w Hw].
    assert (Hk : In (i, w) (kept_rows values)).
    { rewrite <- ranked_table_fst. apply in_map_iff. now exists ((i, w), r). }
    apply (Permutation_in _ (kept_rows_perm values)) in Hk.
    apply filter_In in Hk. destruct Hk as [Hp Hn].
    apply in_pool_rows in Hp. assert (w = v) by congruence. subst w.
    unfold not_nan_obs in Hn. simpl in Hn. apply negb_true_iff in Hn.
    rewrite Hn. f_equal. exact (ranked_table_counts _ _ _ Hw).
  - destruct (is_nan v) eqn:Hn; [reflexivity|]. exfalso.
    apply (lookup_row_none _ _ L v). rewrite ranked_table_fst.
    apply (Permutation_in _ (Permutation_sym (kept_rows_perm values))).
    apply filter_In. split; [now apply in_pool_rows|].
    unfold not_nan_obs. simpl. now rewrite Hn.
Qed.

(** The ranking engine, characterised: every row gets the mid-rank of its
    value, computed from the counts over the whole pool. *)
Lemma rank_counts values : rank values = map (rank_by_counts values) values.
Proof.
  unfold rank.
  apply nth_error_ext. intros i.
  rewrite !nth_error_map.
  destruct (nth_error values i) as [v|] eqn:Hv; simpl.
  - assert (Hi : i < length values) by (apply nth_error_Some; congruence).
    rewrite nth_error_seq. 
    destruct (Nat.ltb_spec i (length values)) as [_|]; [|lia]. simpl.
    f_equal. now apply lookup_row_rank.
  - apply nth_error_None in Hv.
    rewrite nth_error_seq.
    destruct (Nat.ltb_spec i (length values)) as [|_]; [lia|]. reflexivity.
Qed.

(* ================================================================== *)
(** * Sums of ranks and of tie terms *)

Lemma Qsum_app l1 l2 : (Qsum (l1 ++ l2) == Qsum l1 + Qsum l2)%Q.
Proof.
  induction l1 as [|a l IH]; simpl; [ring|]. rewrite IH. ring.
Qed.

Lemma Qsum_perm l l' : Permutation l l' -> (Qsum l == Qsum l')%Q.
Proof.
  induction 1; simpl.
  - reflexivity.
  - now rewrite IHPermutation.
  - ring.
  - now rewrite IHPermutation1.
Qed.

Lemma Qsum_const {A : Type} (c : Q) (l : list A) :
  (Qsum (map (fun _ => c) l) == c * inject_Z (Z.of_nat (length l)))%Q.
Proof.
  induction l as [|a l IH].
  - simpl. ring.
  - cbn [map Qsum fold_right length]. fold (Qsum (map (fun _ : A => c) l)).
    rewrite IH, Nat2Z.inj_succ, <- Z.add_1_r, inject_Z_plus. ring.
Qed.

Lemma Zsum_app l1 l2 : Zsum (l1 ++ l2) = (Zsum l1 + Zsum l2)%Z.
Proof.
  induction l1 as [|a l IH]; simpl; [reflexivity|]. rewrite IH. ring.
Qed.

Lemma Zsum_cons a l : Zsum (a :: l) = (a + Zsum l)%Z.
Proof. reflexivity. Qed.

Lemma Zsum_perm l l' : Permutation l l' -> Zsum l = Zsum l'.
Proof.
  induction 1; simpl; try lia.
Qed.

Lemma Zsum_const {A : Type} (c : Z) (l : list A) :
  Zsum (map (fun _ => c) l) = (Z.of_nat (length l) * c)%Z.
Proof.
  induction l as [|a l IH]; [reflexivity|].
  cbn [map Zsum fold_right length]. fold (Zsum (map (fun _ : A => c) l)).
  rewrite IH. lia.
Qed.

Lemma inject_nat_nonzero (t : nat) : t <> 0 -> ~ (inject_Z (Z.of_nat t) == 0)%Q.
Proof.
  intros Ht E. unfold Qeq in E. simpl in E. lia.
Qed.

Lemma list_sum_seq (t : nat) : forall a,
  2 * list_sum (seq a t) + t = t * (2 * a + t).
Proof.
  induction t as [|t IH]; intros a; simpl; [reflexivity|].
  specialize (IH (S a)). nia.
Qed.

(** The mean of the positions [p+1 .. p+t] is [p + (t+1)/2]. *)
Lemma mean_position_closed p t :
  t <> 0 ->
  (mean_position p t == inject_Z (Z.of_nat (2 * p + t + 1)) / 2)%Q.
Proof.
  intros Ht. unfold mean_position. rewrite Qred_correct.
  pose proof (list_sum_seq t (S p)) as H.
  assert (Hn : 2 * list_sum (seq (S p) t) = t * (2 * p + t + 1)).
  { assert (E : t * (2 * S p + t) = t * (2 * p + t + 1) + t) by ring. lia. }
  assert (Hz : (2 * Z.of_nat (list_sum (seq (S p) t))
                = Z.of_nat t * Z.of_nat (2 * p + t + 1))%Z).
  { rewrite <- Nat2Z.inj_mul, <- Hn, Nat2Z.inj_mul. reflexivity. }
  assert (Hq : (2 * inject_Z (Z.of_nat (list_sum (seq (S p) t)))
                == inject_Z (Z.of_nat t) * inject_Z (Z.of_nat (2 * p + t + 1)))%Q).
  { rewrite <- inject_Z_mult, <- Hz, inject_Z_mult. reflexivity. }
  assert (Hne : ~ (inject_Z (Z.of_nat t) == 0)%Q) by now apply inject_nat_nonzero.
  apply (Qmult_inj_r _ _ (2 * inject_Z (Z.of_nat t))%Q).
  - intros E. apply Hne. lra.
  - field_simplify; [|exact Hne]. rewrite Hq. field.
Qed.

Lemma mean_position_total p t :
  (mean_position p t * inject_Z (Z.of_nat t)
   == inject_Z (Z.of_nat (list_sum (seq (S p) t))))%Q.
Proof.
  destruct t as [|t].
  - simpl. ring.
  - unfold mean_position. rewrite Qred_correct. field.
    now apply inject_nat_nonzero.
Qed.

Lemma assign_ranks_sum gs : forall p,
  (Qsum (map snd (assign_ranks p gs))
   == inject_Z (Z.of_nat (list_sum (seq (S p) (length (concat gs))))))%Q.
Proof.
  induction gs as [|g rest IH]; intros p; simpl; [reflexivity|].
  rewrite map_app, Qsum_app, map_map. simpl.
  rewrite Qsum_const, mean_position_total, IH.
  rewrite length_app, seq_app, list_sum_app, Nat2Z.inj_add, inject_Z_plus.
  reflexivity.
Qed.

Lemma tie_terms_counts gs :
  groups_ok gs ->
  Zsum (tie_terms gs)
  = Zsum (map (fun o => (Z.of_nat (count_eq (snd o) (map snd (concat gs))) ^ 2 - 1)%Z)
              (concat gs)).
Proof.
  induction gs as [|g rest IH]; simpl; intros Hok; [reflexivity|].
  destruct Hok as (Hne & Heq & Hlt & Hrest).
  rewrite map_app, Zsum_app.
  rewrite (map_ext_in _ (fun _ => (Z.of_nat (length g) ^ 2 - 1)%Z) g).
  2:{ intros o Ho. rewrite map_app, count_eq_app. unfold count_eq.
      rewrite (filter_length_all (fun x => flt_eqb x (snd o)) (map snd g)).
      2:{ intros x Hx. apply in_map_iff in Hx. destruct Hx as (a & <- & Ha).
          now apply Heq. }
      rewrite (filter_length_none (fun x => flt_eqb x (snd o)) (map snd (concat rest))).
      2:{ intros x Hx. apply in_map_iff in Hx. destruct Hx as (a & <- & Ha).
          rewrite flt_eqb_sym. apply flt_ltb_not_eqb. now apply Hlt. }
      rewrite length_map, Nat.add_0_r. reflexivity. }
  rewrite (map_ext_in _
             (fun o => (Z.of_nat (count_eq (snd o) (map snd (concat rest))) ^ 2 - 1)%Z)
             (concat rest)).
  2:{ intros o Ho. rewrite map_app, count_eq_app. unfold count_eq at 1.
      rewrite (filter_length_none (fun x => flt_eqb x (snd o)) (map snd g)).
      2:{ intros x Hx. apply in_map_iff in Hx. destruct Hx as (a & <- & Ha).
          apply flt_ltb_not_eqb. now apply Hlt. }
      reflexivity. }
  rewrite <- (IH Hrest), Zsum_const.
  unfold tie_terms. cbn [filter].
  destruct (Nat.ltb_spec 1 (length g)) as [Hl|Hl]; cbn [map].
  - rewrite Zsum_cons. ring.
  - assert (E : length g = 0 \/ length g = 1) by lia.
    destruct E as [-> | ->]; cbn [Z.of_nat]; ring.
Qed.

Lemma no_nan_filter values :
  no_nan values -> filter (fun v => negb (is_nan v)) values = values.
Proof.
  induction 1 as [|v l Hv _ IH]; simpl; [reflexivity|].
  unfold valued in Hv. rewrite Hv. simpl. now rewrite IH.
Qed.

Lemma no_nan_pool_rows values :
  no_nan values -> filter not_nan_obs (pool_rows values) = pool_rows values.
Proof.
  intros H. apply forallb_filter_id. apply forallb_forall.
  intros [i v] Hin. apply in_pool_rows in Hin. apply nth_error_In in Hin.
  unfold no_nan in H. rewrite Forall_forall in H. specialize (H v Hin).
  unfold not_nan_obs, valued in *. simpl. now rewrite H.
Qed.

Lemma tie_terms_pool values :
  no_nan values ->
  Zsum (tie_terms (tie_groups (sort_obs (pool_rows values)))) = tie_sum values.
Proof.
  intros Hn. rewrite <- (no_nan_pool_rows values Hn). fold (kept_rows values).
  rewrite tie_terms_counts.
  2:{ apply tie_groups_ok; [apply kept_rows_valued|].
      apply sort_obs_sorted. apply Forall_forall. intros x Hx.
      apply filter_In in Hx. destruct Hx as [_ Hx].
      unfold not_nan_obs in Hx. now apply negb_true_iff in Hx. }
  rewrite tie_groups_concat.
  rewrite (map_ext _ (fun o => (Z.of_nat (count_eq (snd o) values) ^ 2 - 1)%Z)).
  2:{ intros o. now rewrite count_eq_kept. }
  rewrite <- (map_map snd (fun v => (Z.of_nat (count_eq v values) ^ 2 - 1)%Z)).
  unfold tie_sum. apply Zsum_perm. apply Permutation_map.
  rewrite kept_rows_values. now rewrite no_nan_filter.
Qed.

Lemma tiecorrect_counts values :
  no_nan values ->
  tiecorrect values =
  let n := Z.of_nat (length values) in
  if (n <? 2)%Z then 1%Q
  else (1 - inject_Z (tie_sum values) / inject_Z (n ^ 3 - n))%Q.
Proof.
  intros Hn. unfold tiecorrect. now rewrite tie_terms_pool.
Qed.

Lemma rankdata_counts values :
  no_nan values -> rankdata values = map (midrank values) values.
Proof.
  intros Hn. unfold rankdata. rewrite rank_counts, map_map.
  apply map_ext_in. intros v Hv. unfold rank_by_counts.
  unfold no_nan in Hn. rewrite Forall_forall in Hn. specialize (Hn v Hv).
  unfold valued in Hn. now rewrite Hn.
Qed.

Lemma rank_no_nan values :
  no_nan values -> rank values = map Some (rankdata values).
Proof.
  intros Hn. rewrite rankdata_counts, rank_counts, map_map by exact Hn.
  apply map_ext_in. intros v Hv. unfold rank_by_counts.
  unfold no_nan in Hn. rewrite Forall_forall in Hn. specialize (Hn v Hv).
  unfold valued in Hn. now rewrite Hn.
Qed.

Lemma ranked_table_snd values :
  map snd (ranked_table values) = map (midrank values) (map snd (kept_rows values)).
Proof.
  rewrite <- ranked_table_fst, !map_map.
  apply map_ext_in. intros [o r] Hin. simpl.
  exact (ranked_table_counts _ _ _ Hin).
Qed.

(** Rank-sum invariant on the pool: the ranks add up to [1 + 2 + ... + N]. *)
Lemma rankdata_sum values :
  no_nan values ->
  (Qsum (rankdata values)
   == inject_Z (Z.of_nat (length values) * (Z.of_nat (length values) + 1)) / 2)%Q.
Proof.
  intros Hn. rewrite rankdata_counts by exact Hn.
  assert (Hp : Permutation (map (midrank values) values) (map snd (ranked_table values))).
  { rewrite ranked_table_snd. apply Permutation_map. symmetry.
    rewrite kept_rows_values. now rewrite no_nan_filter. }
  rewrite (Qsum_perm _ _ Hp). unfold ranked_table.
  rewrite assign_ranks_sum, tie_groups_concat.
  rewrite (Permutation_length (sort_obs_perm _)), no_nan_pool_rows by exact Hn.
  unfold pool_rows. rewrite length_combine, length_seq, Nat.min_id.
  pose proof (list_sum_seq (length values) 1) as H.
  set (n := length values) in *. set (s := list_sum (seq 1 n)) in *.
  assert (Hn' : 2 * s = n * (n + 1)).
  { assert (E : n * (2 * 1 + n) = n * (n + 1) + n) by ring. lia. }
  assert (Hz : (2 * Z.of_nat s = Z.of_nat n * (Z.of_nat n + 1))%Z) by lia.
  rewrite <- Hz, inject_Z_mult. field.
Qed.

(* ================================================================== *)
(** * Ties: none, all, some *)

Lemma count_eq_cons v a l :
  count_eq v (a :: l) = (if flt_eqb a v then 1 else 0) + count_eq v l.
Proof. unfold count_eq. simpl. now destruct (flt_eqb a v). Qed.

Lemma all_distinct_count l :
  no_nan l -> all_distinct l = true -> forall v, In v l -> count_eq v l = 1.
Proof.
  induction 1 as [|a tl Ha Htl IH]; simpl; intros Hd v Hv; [contradiction|].
  apply andb_true_iff in Hd. destruct Hd as [Hhd Hd].
  rewrite forallb_forall in Hhd. rewrite count_eq_cons.
  destruct Hv as [<-|Hv].
  - rewrite (flt_eqb_refl _ Ha). unfold count_eq.
    rewrite filter_length_none; [reflexivity|].
    intros w Hw. specialize (Hhd w Hw). apply negb_true_iff in Hhd.
    now rewrite flt_eqb_sym.
  - specialize (Hhd v Hv). apply negb_true_iff in Hhd. rewrite Hhd.
    now rewrite (IH Hd v Hv).
Qed.

Lemma Zsum_zero {A : Type} (f : A -> Z) (l : list A) :
  (forall x, In x l -> f x = 0%Z) -> Zsum (map f l) = 0%Z.
Proof.
  induction l as [|a l IH]; simpl; intros H; [reflexivity|].
  rewrite (H a (or_introl eq_refl)), IH; auto.
Qed.

Lemma tie_sum_distinct l :
  no_nan l -> all_distinct l = true -> tie_sum l = 0%Z.
Proof.
  intros Hn Hd. unfold tie_sum. apply Zsum_zero.
  intros v Hv. now rewrite (all_distinct_count l Hn Hd v Hv).
Qed.

Lemma all_tied_count l :
  all_tied l = true -> forall v, In v l -> count_eq v l = length l.
Proof.
  destruct l as [|a tl]; [intros _ v []|].
  unfold all_tied. intros Ht v Hv. rewrite forallb_forall in Ht.
  unfold count_eq. apply filter_length_all. intros w Hw.
  apply (flt_eqb_trans _ a).
  - rewrite flt_eqb_sym. now apply Ht.
  - now apply Ht.
Qed.

Lemma all_tied_no_nan l : all_tied l = true -> no_nan l.
Proof.
  destruct l as [|a tl]; [constructor|].
  unfold all_tied. intros Ht. rewrite forallb_forall in Ht.
  apply Forall_forall. intros w Hw.
  exact (proj2 (flt_eqb_valued _ _ (Ht w Hw))).
Qed.

Lemma tie_sum_tied l :
  all_tied l = true ->
  tie_sum l = (Z.of_nat (length l) ^ 3 - Z.of_nat (length l))%Z.
Proof.
  intros Ht. unfold tie_sum.
  rewrite (map_ext_in _ (fun _ => (Z.of_nat (length l) ^ 2 - 1)%Z)).
  - rewrite Zsum_const. ring.
  - intros v Hv. now rewrite (all_tied_count l Ht v Hv).
Qed.

Lemma Zsum_le {A : Type} (f : A -> Z) (c : Z) (l : list A) :
  (forall x, In x l -> (f x <= c)%Z) ->
  (Zsum (map f l) <= Z.of_nat (length l) * c)%Z.
Proof.
  induction l as [|a l IH]; intros H; [simpl; lia|].
  cbn [map length]. rewrite Zsum_cons.
  specialize (H a (or_introl eq_refl)) as Ha.
  assert (Hl : (Zsum (map f l) <= Z.of_nat (length l) * c)%Z)
    by (apply IH; intros; apply H; now right).
  lia.
Qed.

Lemma Zsum_lt {A : Type} (f : A -> Z) (c : Z) (l : list A) :
  (forall x, In x l -> (f x <= c)%Z) ->
  (exists x, In x l /\ (f x < c)%Z) ->
  (Zsum (map f l) < Z.of_nat (length l) * c)%Z.
Proof.
  induction l as [|a l IH]; intros H [x [Hx Hlt]]; [contradiction|].
  cbn [map length]. rewrite Zsum_cons.
  specialize (H a (or_introl eq_refl)) as Ha.
  destruct Hx as [<-|Hx].
  - assert (Hl : (Zsum (map f l) <= Z.of_nat (length l) * c)%Z)
      by (apply Zsum_le; intros; apply H; now right).
    lia.
  - assert (Hl : (Zsum (map f l) < Z.of_nat (length l) * c)%Z).
    { apply IH; [intros; apply H; now right|]. now exists x. }
    lia.
Qed.

Lemma forallb_false_witness {A : Type} (f : A -> bool) (l : list A) :
  forallb f l = false -> exists x, In x l /\ f x = false.
Proof.
  induction l as [|a l IH]; simpl; [discriminate|].
  destruct (f a) eqn:E; simpl.
  - intros H. destruct (IH H) as [x [Hx Hf]]. exists x. split; [now right|exact Hf].
  - intros _. exists a. split; [now left|exact E].
Qed.

Lemma not_all_tied_witness l :
  no_nan l -> all_tied l = false ->
  exists v, In v l /\ count_eq v l < length l.
Proof.
  destruct l as [|a tl]; [discriminate|].
  unfold all_tied. intros Hn Ht.
  destruct (forallb_false_witness _ _ Ht) as [w [Hw Hne]].
  destruct Hw as [<-|Hw].
  { inversion Hn; subst. rewrite flt_eqb_refl in Hne; [discriminate|assumption]. }
  exists w. split; [now right|].
  rewrite count_eq_cons, Hne. simpl.
  pose proof (count_eq_le w tl). lia.
Qed.

Lemma tie_sum_not_tied l :
  no_nan l -> all_tied l = false ->
  (tie_sum l < Z.of_nat (length l) ^ 3 - Z.of_nat (length l))%Z.
Proof.
  intros Hn Ht. unfold tie_sum.
  replace (Z.of_nat (length l) ^ 3 - Z.of_nat (length l))%Z
    with (Z.of_nat (length l) * (Z.of_nat (length l) ^ 2 - 1))%Z by ring.
  apply Zsum_lt.
  - intros v _. pose proof (count_eq_le v l). nia.
  - destruct (not_all_tied_witness l Hn Ht) as [v [Hv Hc]].
    exists v. split; [exact Hv|]. nia.
Qed.

Lemma tiecorrect_distinct l :
  no_nan l -> all_distinct l = true -> (tiecorrect l == 1)%Q.
Proof.
  intros Hn Hd. rewrite tiecorrect_counts by exact Hn. cbv zeta.
  destruct (Z.of_nat (length l) <? 2)%Z; [reflexivity|].
  rewrite (tie_sum_distinct l Hn Hd).
  unfold Qdiv. change (inject_Z 0) with 0%Q. ring.
Qed.

Lemma cube_minus_pos (n : Z) : (2 <= n)%Z -> (0 < n ^ 3 - n)%Z.
Proof. intros H. nia. Qed.

Lemma tiecorrect_tied l :
  2 <= length l -> all_tied l = true -> (tiecorrect l == 0)%Q.
Proof.
  intros Hl Ht. rewrite tiecorrect_counts by now apply all_tied_no_nan.
  cbv zeta. destruct (Z.ltb_spec (Z.of_nat (length l)) 2) as [|_]; [lia|].
  rewrite (tie_sum_tied l Ht). field.
  intros E. unfold Qeq in E. simpl in E.
  pose proof (cube_minus_pos (Z.of_nat (length l))). lia.
Qed.

Lemma tiecorrect_not_tied l :
  no_nan l -> all_tied l = false -> ~ (tiecorrect l == 0)%Q.
Proof.
  intros Hn Ht. rewrite tiecorrect_counts by exact Hn. cbv zeta.
  destruct (Z.ltb_spec (Z.of_nat (length l)) 2) as [|Hl]; [intros E; lra|].
  pose proof (tie_sum_not_tied l Hn Ht) as Hlt.
  pose proof (cube_minus_pos (Z.of_nat (length l)) Hl) as Hpos.
  set (d := (Z.of_nat (length l) ^ 3 - Z.of_nat (length l))%Z) in *.
  intros E.
  assert (Hd : ~ (inject_Z d == 0)%Q).
  { intros F. unfold Qeq in F. simpl in F. lia. }
  assert (E' : (inject_Z (tie_sum l) == inject_Z d)%Q).
  { apply (Qmult_inj_r _ _ (/ inject_Z d)%Q).
    - intros F. apply Hd. rewrite <- (Qinv_involutive (inject_Z d)), F. reflexivity.
    - rewrite Qmult_inv_r by exact Hd. unfold Qdiv in E. lra. }
  unfold Qeq in E'. simpl in E'. lia.
Qed.

(* ================================================================== *)
(** * The frame of [calculate_kruskal_wallis]: groups, names, rows *)

Lemma valid_groups_pairs gd gn :
  length gn = length gd -> valid_groups gd = map fst (kept_pairs gd gn).
Proof.
  unfold valid_groups, kept_pairs. revert gn.
  induction gd as [|g gd IH]; intros [|n gn] Hlen; simpl in *;
    try discriminate; [reflexivity|].
  destruct (nonempty g); simpl; f_equal; apply IH; lia.
Qed.

Lemma valid_names_of_pairs gd : forall pre gn,
  length gn = length gd ->
  valid_names_of (enumerate_from (length pre) gd) (pre ++ gn)
  = Return (map snd (kept_pairs gd gn)).
Proof.
  unfold kept_pairs.
  induction gd as [|g gd IH]; intros pre [|n gn] Hlen; simpl in *;
    try discriminate; [reflexivity|].
  assert (Hrec : valid_names_of (enumerate_from (S (length pre)) gd) (pre ++ n :: gn)
                 = Return (map snd (filter (fun gn0 => nonempty (fst gn0)) (combine gd gn)))).
  { replace (S (length pre)) with (length (pre ++ [n])) by (rewrite length_app; simpl; lia).
    replace (pre ++ n :: gn) with ((pre ++ [n]) ++ gn) by (now rewrite <- app_assoc).
    apply IH. lia. }
  destruct (nonempty g); simpl.
  - rewrite nth_error_app2, Nat.sub_diag by lia. simpl.
    rewrite Hrec. reflexivity.
  - exact Hrec.
Qed.

Lemma valid_names_of_error pairs gn e :
  valid_names_of pairs gn = Raise e -> exists m, e = IndexError m.
Proof.
  induction pairs as [|[i g] l IH]; simpl; [discriminate|].
  destruct (nonempty g); [|exact IH].
  destruct (nth_error gn i); [|intros [= <-]; eexists; reflexivity].
  destruct (valid_names_of l gn); simpl; [discriminate|].
  intros [= ->]. now apply IH.
Qed.

Lemma skipn_nth_error {A : Type} (l : list A) : forall i x,
  nth_error l i = Some x -> skipn i l = x :: skipn (S i) l.
Proof.
  induction l as [|a l IH]; intros [|i] x H; simpl in *; try discriminate.
  - now injection H as ->.
  - now apply IH.
Qed.

Lemma skipn_nil_S {A : Type} (l : list A) : forall i,
  skipn i l = [] -> skipn (S i) l = [].
Proof.
  induction l as [|a l IH]; intros [|i] H; simpl in *; try discriminate;
    try reflexivity.
  destruct l; [reflexivity|]. now apply IH.
Qed.

Lemma skipn_cons_S {A : Type} (l : list A) : forall i x tl,
  skipn i l = x :: tl -> skipn (S i) l = tl.
Proof.
  induction l as [|a l IH]; intros [|i] x tl H; simpl in *; try discriminate.
  - now injection H as _ ->.
  - destruct l as [|b l]; [destruct i; discriminate|]. now apply (IH i x).
Qed.

(** The names kept by main.py:167 are those of the kept pairs, whenever the
    lookup [group_names[i]] succeeds for every non-empty group. *)
Lemma valid_names_of_kept gd : forall i gn vn,
  valid_names_of (enumerate_from i gd) gn = Return vn ->
  vn = map snd (kept_pairs gd (skipn i gn))
  /\ valid_groups gd = map fst (kept_pairs gd (skipn i gn)).
Proof.
  unfold kept_pairs, valid_groups.
  induction gd as [|g gd IH]; intros i gn vn H; simpl in *.
  - injection H as <-. now destruct (skipn i gn).
  - destruct (nonempty g) eqn:E.
    + destruct (nth_error gn i) as [nm|] eqn:Hn; [|discriminate].
      destruct (valid_names_of (enumerate_from (S i) gd) gn) as [rest|e] eqn:Hr;
        [|discriminate].
      simpl in H. injection H as <-.
      destruct (IH (S i) gn rest Hr) as [H1 H2].
      rewrite (skipn_nth_error gn i nm Hn). cbn [combine filter fst]. rewrite E.
      cbn [map fst snd]. split; f_equal; assumption.
    + destruct (IH (S i) gn vn H) as [H1 H2].
      destruct (skipn i gn) as [|x tl] eqn:Hs.
      * rewrite (skipn_nil_S gn i Hs) in H1, H2.
        destruct gd; simpl in *; split; assumption.
      * rewrite (skipn_cons_S gn i x tl Hs) in H1, H2.
        cbn [combine filter fst]. rewrite E. split; assumption.
Qed.

Lemma valid_names_kept gd gn vn :
  valid_names gd gn = Return vn ->
  vn = map snd (kept_pairs gd gn) /\ valid_groups gd = map fst (kept_pairs gd gn).
Proof. intros H. exact (valid_names_of_kept gd 0 gn vn H). Qed.

Lemma valid_names_pairs gd gn :
  length gn = length gd -> valid_names gd gn = Return (map snd (kept_pairs gd gn)).
Proof. intros H. exact (valid_names_of_pairs gd [] gn H). Qed.

Lemma kept_pairs_length gd gn :
  length gn = length gd -> length (kept_pairs gd gn) = length (filter nonempty gd).
Proof.
  intros H. fold (valid_groups gd).
  now rewrite (valid_groups_pairs gd gn H), length_map.
Qed.

Lemma pooled_data_from vg : forall i,
  flat_map (fun ig : nat * list pyfloat => snd ig) (enumerate_from i vg) = concat vg.
Proof.
  induction vg as [|g vg IH]; intros i; simpl; [reflexivity|]. now rewrite IH.
Qed.

Lemma pooled_data_concat vg : pooled_data vg = concat vg.
Proof. apply pooled_data_from. Qed.

Lemma map_const_repeat {A B : Type} (c : B) (l : list A) :
  map (fun _ => c) l = repeat c (length l).
Proof. induction l; simpl; congruence. Qed.

Lemma labelled_fst vg : forall vn,
  length vn = length vg -> map fst (labelled (combine vg vn)) = concat vg.
Proof.
  unfold labelled.
  induction vg as [|g vg IH]; intros [|n vn] Hlen; simpl in *;
    try discriminate; [reflexivity|].
  rewrite map_app, map_map. simpl. rewrite map_id. f_equal. apply IH. lia.
Qed.

Lemma labels_of_indices vg : forall pre vn,
  length vn = length vg ->
  map (fun i => nth i (pre ++ vn) EmptyString)
      (flat_map (fun ig : nat * list pyfloat => repeat (fst ig) (length (snd ig)))
                (enumerate_from (length pre) vg))
  = map snd (labelled (combine vg vn)).
Proof.
  unfold labelled.
  induction vg as [|g vg IH]; intros pre [|n vn] Hlen; simpl in *;
    try discriminate; [reflexivity|].
  rewrite !map_app, map_map. simpl. f_equal.
  - rewrite map_repeat, app_nth2, Nat.sub_diag by lia. simpl.
    now rewrite map_const_repeat.
  - replace (S (length pre)) with (length (pre ++ [n])) by (rewrite length_app; simpl; lia).
    replace (pre ++ n :: vn) with ((pre ++ [n]) ++ vn) by (now rewrite <- app_assoc).
    apply IH. lia.
Qed.

Lemma combine_fst_snd {A B : Type} (l : list (A * B)) :
  combine (map fst l) (map snd l) = l.
Proof.
  induction l as [|[a b] l IH]; simpl; congruence.
Qed.

Lemma combine_map_r {A B : Type} (f : A -> B) (l : list A) :
  combine l (map f l) = map (fun x => (x, f x)) l.
Proof. induction l; simpl; congruence. Qed.

(** The frame [ranks], row by row: the value, the name the caller gave to the
    value's group, and the mid-rank of the value in the pool. *)
Lemma ranks_frame_spec vg vn :
  length vn = length vg ->
  ranks_frame vg vn
  = map (fun x => mkRow (fst x) (snd x) (rank_by_counts (concat vg) (fst x)))
        (labelled (combine vg vn)).
Proof.
  intros Hlen. unfold ranks_frame. cbv zeta.
  unfold group_indices, enumerate.
  pose proof (labels_of_indices vg [] vn Hlen) as Hlab. simpl in Hlab.
  rewrite Hlab.
  rewrite pooled_data_concat, rank_counts.
  rewrite <- (labelled_fst vg vn Hlen) at 1 3.
  rewrite combine_fst_snd, map_map, combine_map_r, map_map.
  reflexivity.
Qed.

(* ================================================================== *)
(** * Valid inputs and what [kruskal] does on them *)

Lemma length_concat_sizes (samples : list (list pyfloat)) :
  length (concat samples) = list_sum (map (@length pyfloat) samples).
Proof.
  induction samples as [|g l IH]; simpl; [reflexivity|].
  now rewrite length_app, IH.
Qed.

Lemma h_raw_classical samples :
  h_raw samples = classical_H (rank_sums samples) (map (@length pyfloat) samples).
Proof.
  unfold h_raw, classical_H, ssbn. now rewrite length_concat_sizes.
Qed.

Lemma finite_valued v : is_finite v = true -> valued v.
Proof. destruct v; simpl; intros; try discriminate; reflexivity. Qed.

Lemma all_finite_no_nan gd : all_finite gd = true -> no_nan (concat gd).
Proof.
  unfold all_finite. rewrite forallb_forall. intros H.
  apply Forall_forall. intros v Hv. apply in_concat in Hv.
  destruct Hv as [g [Hg Hv]]. specialize (H g Hg).
  rewrite forallb_forall in H. apply finite_valued. now apply H.
Qed.

Lemma all_finite_filter (f : list pyfloat -> bool) gd :
  all_finite gd = true -> all_finite (filter f gd) = true.
Proof.
  unfold all_finite. rewrite !forallb_forall. intros H g Hg.
  apply filter_In in Hg. now apply H.
Qed.

Lemma valid_input_groups gd :
  valid_input gd = true ->
  2 <= length (valid_groups gd) /\ no_nan (concat (valid_groups gd)).
Proof.
  unfold valid_input. intros H. apply andb_true_iff in H. destruct H as [Hk Hf].
  split; [now apply Nat.leb_le in Hk|].
  apply all_finite_no_nan. now apply all_finite_filter.
Qed.

Lemma existsb_false {A : Type} (f : A -> bool) (l : list A) :
  (forall x, In x l -> f x = false) -> existsb f l = false.
Proof.
  induction l as [|a l IH]; simpl; intros H; [reflexivity|].
  rewrite (H a (or_introl eq_refl)), IH; auto.
Qed.

Lemma valid_groups_nonempty gd :
  existsb (fun s : list pyfloat => negb (nonempty s)) (valid_groups gd) = false.
Proof.
  apply existsb_false. intros g Hg. apply filter_In in Hg.
  destruct Hg as [_ Hg]. now rewrite Hg.
Qed.

Lemma no_nan_existsb samples :
  no_nan (concat samples) -> existsb (existsb is_nan) samples = false.
Proof.
  intros H. apply existsb_false. intros g Hg. apply existsb_false.
  intros v Hv. unfold no_nan in H. rewrite Forall_forall in H.
  apply H. apply in_concat. now exists g.
Qed.

Lemma two_groups_two_values gd :
  2 <= length (valid_groups gd) -> 2 <= length (concat (valid_groups gd)).
Proof.
  unfold valid_groups.
  induction gd as [|g gd IH]; simpl; intros H; [lia|].
  destruct g as [|v g]; simpl in *; [now apply IH|].
  rewrite length_app.
  destruct (filter nonempty gd) as [|[|w g'] rest] eqn:E; simpl in *; try lia.
  assert (In [] (filter nonempty gd)) by (rewrite E; now left).
  apply filter_In in H0. destruct H0 as [_ H0]. discriminate.
Qed.

Section Properties.

Variable chi2_sf : Q -> Z -> Q.

Lemma kruskal_eval gd :
  2 <= length (valid_groups gd) ->
  no_nan (concat (valid_groups gd)) ->
  kruskal chi2_sf (valid_groups gd)
  = if Qeq_bool (tiecorrect (concat (valid_groups gd))) 0
    then Raise (DegenerateInput "All numbers are identical in kruskal")
    else
      let h := Qred (h_raw (valid_groups gd) / tiecorrect (concat (valid_groups gd))) in
      Return (Finite h,
              Finite (chi2_sf h (Z.of_nat (length (valid_groups gd)) - 1))).
Proof.
  intros Hk Hn. unfold kruskal.
  destruct (Nat.ltb_spec (length (valid_groups gd)) 2) as [|_]; [lia|].
  rewrite valid_groups_nonempty, (no_nan_existsb _ Hn). reflexivity.
Qed.

Lemma kruskal_nan gd :
  2 <= length (valid_groups gd) ->
  existsb (existsb is_nan) (valid_groups gd) = true ->
  kruskal chi2_sf (valid_groups gd) = Return (NaN, NaN).
Proof.
  intros Hk Hn. unfold kruskal.
  destruct (Nat.ltb_spec (length (valid_groups gd)) 2) as [|_]; [lia|].
  now rewrite valid_groups_nonempty, Hn.
Qed.

Lemma kruskal_few gd :
  length (valid_groups gd) < 2 ->
  kruskal chi2_sf (valid_groups gd)
  = Raise (InvalidInput "Need at least two groups in stats.kruskal()").
Proof.
  intros Hk. unfold kruskal.
  destruct (Nat.ltb_spec (length (valid_groups gd)) 2) as [_|]; [reflexivity|lia].
Qed.

(** [calculate_kruskal_wallis], once the names are as many as the groups. *)
Lemma calculate_eval gd gn alpha sd :
  length gn = length gd ->
  calculate_kruskal_wallis chi2_sf gd gn alpha sd
  = (hp <- kruskal chi2_sf (valid_groups gd) ;;
     Return (mkResults (fst hp) (snd hp)
               (Z.of_nat (length (valid_groups gd)) - 1)
               (flt_ltb (snd hp) (Finite alpha))
               (groupby_mean (ranks_frame (valid_groups gd) (map snd (kept_pairs gd gn))))
               (ranks_frame (valid_groups gd) (map snd (kept_pairs gd gn))))).
Proof.
  intros Hlen. unfold calculate_kruskal_wallis.
  rewrite (valid_names_pairs gd gn Hlen). reflexivity.
Qed.

(** A result of [calculate_kruskal_wallis], spelled out on the kept pairs. *)
Lemma calculate_return gd gn alpha sd r :
  calculate_kruskal_wallis chi2_sf gd gn alpha sd = Return r ->
  valid_names gd gn = Return (map snd (kept_pairs gd gn))
  /\ valid_groups gd = map fst (kept_pairs gd gn)
  /\ exists hp,
       kruskal chi2_sf (valid_groups gd) = Return hp
       /\ r = mkResults (fst hp) (snd hp)
                (Z.of_nat (length (valid_groups gd)) - 1)
                (flt_ltb (snd hp) (Finite alpha))
                (groupby_mean (ranks_frame (map fst (kept_pairs gd gn))
                                           (map snd (kept_pairs gd gn))))
                (ranks_frame (map fst (kept_pairs gd gn))
                             (map snd (kept_pairs gd gn))).
Proof.
  unfold calculate_kruskal_wallis. intros H.
  destruct (valid_names gd gn) as [vn|e] eqn:Hvn; [|discriminate].
  destruct (valid_names_kept gd gn vn Hvn) as [-> Hvg].
  split; [reflexivity|]. split; [exact Hvg|].
  unfold bind in H.
  destruct (kruskal chi2_sf (valid_groups gd)) as [hp|e]; [|discriminate].
  injection H as <-. exists hp. split; [reflexivity|]. now rewrite <- Hvg.
Qed.

End Properties.

(* ================================================================== *)
(** * Rank sums per group *)

Lemma firstn_length_app {A : Type} (l1 l2 : list A) : firstn (length l1) (l1 ++ l2) = l1.
Proof. induction l1; simpl; congruence. Qed.

Lemma skipn_length_app {A : Type} (l1 l2 : list A) : skipn (length l1) (l1 ++ l2) = l2.
Proof. induction l1; simpl; congruence. Qed.

Lemma split_by_map (f : pyfloat -> Q) (samples : list (list pyfloat)) :
  split_by (map (@length pyfloat) samples) (map f (concat samples))
  = map (map f) samples.
Proof.
  induction samples as [|g tl IH]; simpl; [reflexivity|].
  rewrite map_app. rewrite <- (length_map f g) at 1 2.
  now rewrite firstn_length_app, skipn_length_app, IH.
Qed.

Lemma rank_sums_counts samples :
  no_nan (concat samples) ->
  rank_sums samples
  = map (fun g => Qsum (map (midrank (concat samples)) g)) samples.
Proof.
  intros Hn. unfold rank_sums.
  now rewrite (rankdata_counts _ Hn), split_by_map, map_map.
Qed.

Lemma Qsum_concat (ls : list (list Q)) : (Qsum (map Qsum ls) == Qsum (concat ls))%Q.
Proof.
  induction ls as [|l ls IH]; simpl; [reflexivity|].
  now rewrite Qsum_app, IH.
Qed.

Lemma rank_sums_total samples :
  no_nan (concat samples) ->
  (Qsum (rank_sums samples) == Qsum (rankdata (concat samples)))%Q.
Proof.
  intros Hn. unfold rank_sums.
  rewrite (rankdata_counts _ Hn), split_by_map, Qsum_concat, <- concat_map.
  reflexivity.
Qed.

Lemma sorted_app_le (l1 l2 : list observation) :
  StronglySorted obs_le (l1 ++ l2) ->
  forall a b, In a l1 -> In b l2 -> obs_le a b.
Proof.
  induction l1 as [|x l1 IH]; simpl; intros Hs a b Ha Hb; [contradiction|].
  inversion Hs as [|? ? Htl Hx]; subst.
  destruct Ha as [<-|Ha].
  - rewrite Forall_forall in Hx. apply Hx. apply in_or_app. now right.
  - now apply IH.
Qed.

Lemma has_no_nan_spec values :
  forallb (fun v => negb (is_nan v)) values = true -> no_nan values.
Proof.
  rewrite forallb_forall. intros H. apply Forall_forall. intros v Hv.
  specialize (H v Hv). now apply negb_true_iff in H.
Qed.

(* ================================================================== *)
(** * Dropping the empty groups *)

Lemma valid_groups_idem gd : valid_groups (valid_groups gd) = valid_groups gd.
Proof.
  unfold valid_groups. apply forallb_filter_id. apply forallb_forall.
  intros g Hg. apply filter_In in Hg. tauto.
Qed.

Lemma kept_pairs_idem gd gn :
  length gn = length gd ->
  kept_pairs (valid_groups gd) (map snd (kept_pairs gd gn)) = kept_pairs gd gn.
Proof.
  intros Hlen. rewrite (valid_groups_pairs gd gn Hlen).
  unfold kept_pairs at 1. rewrite combine_fst_snd.
  apply forallb_filter_id. apply forallb_forall.
  intros x Hx. apply filter_In in Hx. tauto.
Qed.

Lemma kept_names_length gd gn :
  length gn = length gd ->
  length (map snd (kept_pairs gd gn)) = length (valid_groups gd).
Proof.
  intros Hlen. now rewrite (valid_groups_pairs gd gn Hlen), !length_map.
Qed.

Lemma ranks_frame_values vg vn :
  length vn = length vg -> map Value (ranks_frame vg vn) = concat vg.
Proof.
  intros Hlen. rewrite (ranks_frame_spec vg vn Hlen), map_map. simpl.
  apply labelled_fst. exact Hlen.
Qed.

Lemma existsb_no_nan samples :
  existsb (existsb is_nan) samples = false -> no_nan (concat samples).
Proof.
  intros H. apply Forall_forall. intros v Hv. apply in_concat in Hv.
  destruct Hv as [g [Hg Hv]]. unfold valued.
  destruct (is_nan v) eqn:E; [|reflexivity].
  assert (T : existsb (existsb is_nan) samples = true).
  { apply existsb_exists. exists g. split; [exact Hg|].
    apply existsb_exists. now exists v. }
  congruence.
Qed.

Lemma in_combine_nth {A B : Type} (l1 : list A) : forall (l2 : list B) a b,
  In (a, b) (combine l1 l2) <->
  exists i, nth_error l1 i = Some a /\ nth_error l2 i = Some b.
Proof.
  induction l1 as [|x l1 IH]; intros [|y l2] a b; simpl.
  - split; [contradiction|]. intros [[|i] [H _]]; discriminate.
  - split; [contradiction|]. intros [[|i] [H _]]; discriminate.
  - split; [contradiction|]. intros [[|i] [_ H]]; discriminate.
  - rewrite IH. split.
    + intros [[= <- <-]|[i Hi]]; [now exists 0|now exists (S i)].
    + intros [[|i] [H1 H2]]; simpl in *.
      * left. congruence.
      * right. now exists i.
Qed.

Lemma filter_map_comm {A B : Type} (f : B -> bool) (g : A -> B) (l : list A) :
  filter f (map g l) = map g (filter (fun x => f (g x)) l).
Proof.
  induction l as [|a l IH]; simpl; [reflexivity|].
  destruct (f (g a)); simpl; now rewrite IH.
Qed.

Lemma filter_labelled (nm : string) (pairs : list (list pyfloat * string)) :
  filter (fun x : pyfloat * string => String.eqb (snd x) nm) (labelled pairs)
  = labelled (filter (fun gn => String.eqb (snd gn) nm) pairs).
Proof.
  unfold labelled.
  induction pairs as [|[g n] l IH]; simpl; [reflexivity|].
  rewrite filter_app, IH, filter_map_comm. simpl.
  destruct (String.eqb n nm); simpl.
  - f_equal. f_equal. apply forallb_filter_id. now apply forallb_forall.
  - replace (filter (fun _ : pyfloat => false) g) with (@nil pyfloat); [reflexivity|].
    clear. induction g; simpl; auto.
Qed.

Lemma labelled_fst_pairs (pairs : list (list pyfloat * string)) :
  map fst (labelled pairs) = concat (map fst pairs).
Proof.
  unfold labelled.
  induction pairs as [|[g n] l IH]; simpl; [reflexivity|].
  rewrite map_app, map_map, IH. simpl. now rewrite map_id.
Qed.

Lemma groupby_mean_in rows nm m :
  In (nm, m) (groupby_mean rows) ->
  m = mean (map Rank (filter (fun r => String.eqb (Group r) nm) rows)).
Proof.
  unfold groupby_mean. intros H. apply in_map_iff in H.
  destruct H as (k & [= -> <-] & _). reflexivity.
Qed.

(* ================================================================== *)
(** * The group keys of [groupby] *)

Lemma string_lt_trans a b c : string_lt a b -> string_lt b c -> string_lt a c.
Proof.
  unfold string_lt. fold (OrderedTypeEx.String_as_OT.cmp a b).
  fold (OrderedTypeEx.String_as_OT.cmp b c). fold (OrderedTypeEx.String_as_OT.cmp a c).
  rewrite !OrderedTypeEx.String_as_OT.cmp_lt.
  apply OrderedTypeEx.String_as_OT.lt_trans.
Qed.

Lemma string_lt_irrefl a : ~ string_lt a a.
Proof.
  unfold string_lt. intros H.
  assert (E : String.compare a a = Eq) by (now apply (proj2 (OrderedTypeEx.String_as_OT.cmp_eq a a))).
  congruence.
Qed.

Lemma string_compare_gt a b : String.compare a b = Gt -> string_lt b a.
Proof.
  unfold string_lt. intros H. rewrite String.compare_antisym, H. reflexivity.
Qed.

Lemma insert_key_in k s x : In x (insert_key k s) <-> x = k \/ In x s.
Proof.
  induction s as [|y tl IH]; simpl; [intuition|].
  destruct (String.compare k y) eqn:E; simpl.
  - apply (proj1 (OrderedTypeEx.String_as_OT.cmp_eq k y)) in E. subst y. intuition.
  - intuition.
  - rewrite IH. intuition.
Qed.

Lemma insert_key_sorted k s :
  StronglySorted string_lt s -> StronglySorted string_lt (insert_key k s).
Proof.
  induction 1 as [|y tl Htl IH Hy]; simpl; [repeat constructor|].
  destruct (String.compare k y) eqn:E.
  - now constructor.
  - constructor; [now constructor|]. constructor; [exact E|].
    rewrite Forall_forall in *. intros z Hz.
    apply (string_lt_trans _ y); [exact E|now apply Hy].
  - constructor; [exact IH|]. rewrite Forall_forall in *. intros z Hz.
    apply insert_key_in in Hz. destruct Hz as [->|Hz]; [|now apply Hy].
    now apply string_compare_gt.
Qed.

Lemma group_keys_sorted labels : StronglySorted string_lt (group_keys labels).
Proof.
  induction labels as [|k l IH]; simpl; [constructor|].
  now apply insert_key_sorted.
Qed.

Lemma group_keys_in labels x : In x (group_keys labels) <-> In x labels.
Proof.
  induction labels as [|k l IH]; simpl; [tauto|].
  rewrite insert_key_in, IH. intuition.
Qed.

Lemma sorted_keys_unique (l1 : list string) : forall l2,
  StronglySorted string_lt l1 -> StronglySorted string_lt l2 ->
  (forall x, In x l1 <-> In x l2) -> l1 = l2.
Proof.
  induction l1 as [|a t1 IH]; intros [|b t2] H1 H2 Hin.
  - reflexivity.
  - exfalso. apply (proj2 (Hin b)). now left.
  - exfalso. apply (proj1 (Hin a)). now left.
  - inversion H1 as [|? ? Ht1 Ha]; subst. inversion H2 as [|? ? Ht2 Hb]; subst.
    rewrite Forall_forall in Ha, Hb.
    assert (Hab : a = b).
    { destruct (proj1 (Hin a) (or_introl eq_refl)) as [E|Ha2]; [now symmetry|].
      destruct (proj2 (Hin b) (or_introl eq_refl)) as [E|Hb1]; [exact E|].
      exfalso. apply (string_lt_irrefl a).
      apply (string_lt_trans _ b); [now apply Ha|now apply Hb]. }
    subst b. f_equal. apply IH; [exact Ht1|exact Ht2|].
    intros x. split; intros Hx.
    + destruct (proj1 (Hin x) (or_intror Hx)) as [E|Hx2]; [|exact Hx2].
      subst x. exfalso. apply (string_lt_irrefl a). now apply Ha.
    + destruct (proj2 (Hin x) (or_intror Hx)) as [E|Hx1]; [|exact Hx1].
      subst x. exfalso. apply (string_lt_irrefl a). now apply Hb.
Qed.

Lemma group_keys_perm l l' : Permutation l l' -> group_keys l = group_keys l'.
Proof.
  intros Hp. apply sorted_keys_unique; try apply group_keys_sorted.
  intros x. rewrite !group_keys_in.
  split; apply Permutation_in; [exact Hp|now symmetry].
Qed.

(* ================================================================== *)
(** * Reordering the groups *)

Lemma filter_perm {A : Type} (f : A -> bool) (l l' : list A) :
  Permutation l l' -> Permutation (filter f l) (filter f l').
Proof.
  induction 1; simpl.
  - constructor.
  - destruct (f x); [now constructor|assumption].
  - destruct (f x), (f y); try reflexivity. apply perm_swap.
  - now transitivity (filter f l').
Qed.


Lemma existsb_perm {A : Type} (f : A -> bool) (l l' : list A) :
  Permutation l l' -> existsb f l = existsb f l'.
Proof.
  induction 1; simpl; try congruence.
  destruct (f x), (f y); reflexivity.
Qed.

Lemma somes_perm l l' : Permutation l l' -> Permutation (somes l) (somes l').
Proof.
  induction 1; simpl.
  - constructor.
  - destruct x; [now constructor|assumption].
  - destruct x, y; try reflexivity. apply perm_swap.
  - now transitivity (somes l').
Qed.

Lemma mean_perm l l' : Permutation l l' -> mean l = mean l'.
Proof.
  intros H. apply somes_perm in H. unfold mean.
  destruct (somes l) as [|a xs] eqn:E1.
  - apply Permutation_nil in H. now rewrite H.
  - destruct (somes l') as [|b ys] eqn:E2.
    + symmetry in H. apply Permutation_nil in H. discriminate.
    + f_equal. apply Qred_complete.
      rewrite (Qsum_perm _ _ H), (Permutation_length H). reflexivity.
Qed.

Lemma groupby_mean_perm rows rows' :
  Permutation rows rows' -> groupby_mean rows = groupby_mean rows'.
Proof.
  intros H. unfold groupby_mean.
  rewrite (group_keys_perm _ _ (Permutation_map Group H)).
  apply map_ext. intros k. f_equal. apply mean_perm.
  apply Permutation_map. now apply filter_perm.
Qed.

Lemma midrank_perm l l' v : Permutation l l' -> midrank l v = midrank l' v.
Proof.
  intros H. unfold midrank.
  now rewrite (count_lt_perm v _ _ H), (count_eq_perm v _ _ H).
Qed.

Lemma rank_by_counts_perm l l' v :
  Permutation l l' -> rank_by_counts l v = rank_by_counts l' v.
Proof.
  intros H. unfold rank_by_counts.
  now rewrite (count_lt_perm v _ _ H), (count_eq_perm v _ _ H).
Qed.

Lemma no_nan_perm l l' : Permutation l l' -> no_nan l -> no_nan l'.
Proof. intros H. unfold no_nan. now apply Permutation_Forall. Qed.

Lemma tie_sum_perm l l' : Permutation l l' -> tie_sum l = tie_sum l'.
Proof.
  intros H. unfold tie_sum.
  rewrite (map_ext _ (fun v => (Z.of_nat (count_eq v l') ^ 2 - 1)%Z)).
  - apply Zsum_perm. now apply Permutation_map.
  - intros v. now rewrite (count_eq_perm v _ _ H).
Qed.

Lemma tiecorrect_perm l l' :
  no_nan l -> Permutation l l' -> tiecorrect l = tiecorrect l'.
Proof.
  intros Hn H.
  rewrite (tiecorrect_counts l Hn), (tiecorrect_counts l' (no_nan_perm _ _ H Hn)).
  now rewrite (Permutation_length H), (tie_sum_perm _ _ H).
Qed.

Lemma combine_map_map {A B C : Type} (f : A -> B) (g : A -> C) (l : list A) :
  combine (map f l) (map g l) = map (fun x => (f x, g x)) l.
Proof. induction l; simpl; congruence. Qed.

Lemma ssbn_counts samples :
  no_nan (concat samples) ->
  ssbn samples = Qsum (map (sample_term (concat samples)) samples).
Proof.
  intros Hn. unfold ssbn.
  rewrite (rank_sums_counts samples Hn), combine_map_map, map_map. reflexivity.
Qed.



Lemma labelled_names_in (pairs : list (list pyfloat * string)) (nm : string) :
  (forall gn, In gn pairs -> nonempty (fst gn) = true) ->
  (In nm (map snd (labelled pairs)) <-> In nm (map snd pairs)).
Proof.
  unfold labelled.
  induction pairs as [|[g n] l IH]; simpl; intros Hne; [tauto|].
  rewrite map_app, in_app_iff, map_map. simpl.
  rewrite IH by (intros; apply Hne; now right).
  specialize (Hne (g, n) (or_introl eq_refl)). simpl in Hne.
  destruct g as [|v g]; [discriminate|]. simpl.
  split; [|intuition].
  intros [[H|H]|H]; [now left| |now right].
  apply in_map_iff in H. destruct H as (w & <- & _). now left.
Qed.

Lemma kept_pairs_nonempty gd gn :
  forall p, In p (kept_pairs gd gn) -> nonempty (fst p) = true.
Proof. intros p H. apply filter_In in H. tauto. Qed.

(** The frame built from retained pairs, and its reordering. *)
Lemma ranks_frame_pairs (pairs : list (list pyfloat * string)) :
  ranks_frame (map fst pairs) (map snd pairs)
  = map (fun x => mkRow (fst x) (snd x)
                    (rank_by_counts (concat (map fst pairs)) (fst x)))
        (labelled pairs).
Proof.
  rewrite ranks_frame_spec by now rewrite !length_map.
  now rewrite combine_fst_snd.
Qed.


(** Whenever every collected group is non-empty, which is when [main] goes
    on to [calculate_kruskal_wallis], each tab gave one group and one name. *)
Lemma read_tabs_aligned tabs :
  forallb nonempty (fst (read_tabs tabs)) = true ->
  length (snd (read_tabs tabs)) = length (fst (read_tabs tabs)).
Proof.
  induction tabs as [|[name text] tl IH]; simpl; [reflexivity|].
  destruct (read_tabs tl) as [gd gn]. simpl in *.
  destruct text as [|g|]; simpl; try discriminate.
  destruct (nonempty g) eqn:E; simpl; [|discriminate].
  rewrite E. simpl. intros H. f_equal. now apply IH.
Qed.

(* ================================================================== *)
(** * Runs of equal values and the columns of the frame *)

Lemma concat_valid_groups gd : concat (valid_groups gd) = concat gd.
Proof.
  unfold valid_groups. induction gd as [|g gd IH]; simpl; [reflexivity|].
  destruct g; simpl; now rewrite IH.
Qed.

Lemma pool_rows_valued values : no_nan values -> Forall obs_valued (pool_rows values).
Proof.
  intros Hn. apply Forall_forall. intros [i v] H. apply in_pool_rows in H.
  unfold obs_valued. simpl. unfold no_nan in Hn. rewrite Forall_forall in Hn.
  apply Hn. eapply nth_error_In; eassumption.
Qed.

(** A maximal run of equal values in any arrangement of the pool that is
    sorted by value: its members get the mean of the positions it spans. *)
Lemma run_mid_rank (values : list pyfloat) (arranged before run after : list observation) :
  no_nan values ->
  Permutation arranged (pool_rows values) ->
  StronglySorted obs_le arranged ->
  arranged = before ++ run ++ after ->
  (forall o o', In o run -> In o' run -> flt_eqb (snd o) (snd o') = true) ->
  (forall o o', In o (before ++ after) -> In o' run -> flt_eqb (snd o) (snd o') = false) ->
  forall i v, In (i, v) run ->
    nth_error values i = Some v
    /\ nth_error (rank values) i
       = Some (Some (mean_position (length before) (length run))).
Proof.
  intros Hnan Hperm Hs Harr Heq Hmax i v Hin. subst arranged.
  assert (Hrow : nth_error values i = Some v).
  { apply in_pool_rows. apply (Permutation_in _ Hperm).
    apply in_or_app. right. apply in_or_app. now left. }
  split; [exact Hrow|].
  rewrite rank_counts, nth_error_map, Hrow. simpl. f_equal.
  unfold rank_by_counts.
  assert (Hv : is_nan v = false).
  { unfold no_nan in Hnan. rewrite Forall_forall in Hnan.
    apply Hnan. eapply nth_error_In; eassumption. }
  rewrite Hv. f_equal.
  assert (Hvals : Permutation values (map snd (before ++ run ++ after))).
  { rewrite <- (pool_rows_snd values). symmetry. now apply Permutation_map. }
  rewrite (count_lt_perm v _ _ Hvals), (count_eq_perm v _ _ Hvals).
  rewrite !map_app, !count_lt_app, !count_eq_app.
  unfold count_lt, count_eq.
  rewrite (filter_length_all (fun x => flt_ltb x v) (map snd before)).
  2:{ intros x Hx. apply in_map_iff in Hx. destruct Hx as (b & <- & Hb).
      apply flt_leb_neq_ltb.
      - apply (sorted_app_le _ _ Hs b (i, v) Hb).
        apply in_or_app. now left.
      - apply (Hmax b (i, v)); [apply in_or_app; now left|exact Hin]. }
  rewrite (filter_length_none (fun x => flt_ltb x v) (map snd run)).
  2:{ intros x Hx. apply in_map_iff in Hx. destruct Hx as (b & <- & Hb).
      apply flt_eqb_not_ltb. exact (Heq b (i, v) Hb Hin). }
  rewrite (filter_length_none (fun x => flt_ltb x v) (map snd after)).
  2:{ intros x Hx. apply in_map_iff in Hx. destruct Hx as (b & <- & Hb).
      assert (Hle : obs_le (i, v) b).
      { rewrite app_assoc in Hs.
        apply (sorted_app_le _ _ Hs (i, v) b); [|exact Hb].
        apply in_or_app. now right. }
      assert (Hne : flt_eqb (snd b) v = false).
      { apply (Hmax b (i, v)); [apply in_or_app; now right|exact Hin]. }
      unfold obs_le in Hle. simpl in Hle. rewrite flt_eqb_sym in Hne.
      apply flt_ltb_asym. now apply flt_leb_neq_ltb. }
  rewrite (filter_length_none (fun x => flt_eqb x v) (map snd before)).
  2:{ intros x Hx. apply in_map_iff in Hx. destruct Hx as (b & <- & Hb).
      apply (Hmax b (i, v)); [apply in_or_app; now left|exact Hin]. }
  rewrite (filter_length_all (fun x => flt_eqb x v) (map snd run)).
  2:{ intros x Hx. apply in_map_iff in Hx. destruct Hx as (b & <- & Hb).
      exact (Heq b (i, v) Hb Hin). }
  rewrite (filter_length_none (fun x => flt_eqb x v) (map snd after)).
  2:{ intros x Hx. apply in_map_iff in Hx. destruct Hx as (b & <- & Hb).
      apply (Hmax b (i, v)); [apply in_or_app; now right|exact Hin]. }
  rewrite !length_map. f_equal; lia.
Qed.

(** A tie group among the tie groups: equal inside, strictly above what
    comes before, strictly below what comes after. *)
Lemma groups_ok_split (gs1 : list (list observation)) : forall g gs2,
  groups_ok (gs1 ++ g :: gs2) ->
  g <> []
  /\ (forall a b, In a g -> In b g -> flt_eqb (snd a) (snd b) = true)
  /\ (forall a b, In a (concat gs1) -> In b g -> flt_ltb (snd a) (snd b) = true)
  /\ (forall a b, In a g -> In b (concat gs2) -> flt_ltb (snd a) (snd b) = true).
Proof.
  induction gs1 as [|h gs1 IH]; intros g gs2 H.
  - simpl in H. destruct H as (Hne & Heq & Hlt & _).
    split; [exact Hne|]. split; [exact Heq|]. split; [|exact Hlt].
    intros a b [].
  - simpl in H. destruct H as (_ & _ & Hlt & Hrest).
    destruct (IH g gs2 Hrest) as (Hne & Heq & Hb & Ha).
    split; [exact Hne|]. split; [exact Heq|]. split; [|exact Ha].
    intros a b Hin Hb'. simpl in Hin. apply in_app_or in Hin.
    destruct Hin as [Hin|Hin]; [|now apply Hb].
    apply Hlt; [exact Hin|]. rewrite concat_app. apply in_or_app. right.
    simpl. apply in_or_app. now left.
Qed.

Section FrameColumns.

Variable chi2_sf : Q -> Z -> Q.

(** The [Value] and [Rank] columns of a returned frame: the pooled
    observations in input order, and their ranks in the pool. *)
Lemma frame_rank_column gd gn alpha sd r :
  calculate_kruskal_wallis chi2_sf gd gn alpha sd = Return r ->
  map Value (all_data r) = concat gd
  /\ map Rank (all_data r) = rank (concat gd).
Proof.
  intros H.
  destruct (calculate_return chi2_sf gd gn alpha sd r H) as (_ & Hvg & hp & _ & ->).
  cbn [all_data]. rewrite <- (concat_valid_groups gd), Hvg.
  rewrite ranks_frame_pairs, !map_map. cbn [Value Rank].
  rewrite rank_counts, <- labelled_fst_pairs, map_map. split; [|reflexivity].
  reflexivity.
Qed.

End FrameColumns.

Lemma Qred_inject_Z z : Qred (inject_Z z) = inject_Z z.
Proof. apply Qcanon.Qred_identity. simpl. apply Z.gcd_1_r. Qed.

Lemma mean_position_one p : mean_position p 1 = inject_Z (Z.of_nat (S p)).
Proof.
  unfold mean_position.
  transitivity (Qred (inject_Z (Z.of_nat (S p)))); [|apply Qred_inject_Z].
  apply Qred_complete.
  replace (list_sum (seq (S p) 1)) with (S p) by (simpl; lia).
  change (inject_Z (Z.of_nat 1)) with 1%Q. field.
Qed.

(** Without ties the rank of a value is its position in the sorted pool:
    one more than the number of smaller observations. *)
Lemma untied_rank pool v :
  no_nan pool -> all_distinct pool = true -> In v pool ->
  midrank pool v = inject_Z (Z.of_nat (S (count_lt v pool)))
  /\ rank_by_counts pool v = Some (inject_Z (Z.of_nat (S (count_lt v pool)))).
Proof.
  intros Hn Hd Hv. unfold midrank, rank_by_counts.
  assert (Hnan : is_nan v = false).
  { unfold no_nan in Hn. rewrite Forall_forall in Hn. now apply Hn. }
  rewrite Hnan, (all_distinct_count pool Hn Hd v Hv), mean_position_one.
  split; reflexivity.
Qed.

(* ================================================================== *)
(** * The claims *)

Section Claims.

Variable chi2_sf : Q -> Z -> Q.

(** C2.  The pooled ranking of values that hold no NaN.  (1) The pool the
    ranking works on is the pool itself, rearranged in ascending order of
    value.  (2) Its tie groups are the maximal runs of equal values of that
    sorted pool: laid end to end they are the sorted pool, no group is
    empty, the members of a group share their value, every observation
    before the group is strictly smaller and every observation after it
    strictly larger; and every member of a group, at its own row [i], has
    for rank the arithmetic mean of the positions
    [|before| + 1 .. |before| + |group|] the group spans: their sum divided
    by their number.  (3) Every row of the pool lies in one of the tie
    groups.  (4) The same holds for whatever arrangement of the pool sorted
    by value and whatever maximal run of equal values in it.  (5) These
    ranks are the [Rank] column of the frame [calculate_kruskal_wallis]
    returns, row by row. *)
Theorem mid_rank_of_tie_group :
  forall values : list pyfloat,
    forallb (fun v => negb (is_nan v)) values = true ->
    let sorted := sort_obs (pool_rows values) in
    (Permutation sorted (pool_rows values) /\ StronglySorted obs_le sorted)
    /\ (forall gs1 g gs2,
          tie_groups sorted = gs1 ++ g :: gs2 ->
          sorted = concat gs1 ++ g ++ concat gs2
          /\ g <> []
          /\ (forall o o', In o g -> In o' g -> flt_eqb (snd o) (snd o') = true)
          /\ (forall o o', In o (concat gs1) -> In o' g ->
                           flt_ltb (snd o) (snd o') = true)
          /\ (forall o o', In o g -> In o' (concat gs2) ->
                           flt_ltb (snd o) (snd o') = true)
          /\ forall i v, In (i, v) g ->
               nth_error values i = Some v /\
               exists r,
                 nth_error (rank values) i = Some (Some r)
                 /\ (r == inject_Z (Z.of_nat
                                      (list_sum (seq (S (length (concat gs1)))
                                                     (length g))))
                          / inject_Z (Z.of_nat (length g)))%Q)
    /\ (forall i v, nth_error values i = Some v ->
          exists gs1 g gs2, tie_groups sorted = gs1 ++ g :: gs2 /\ In (i, v) g)
    /\ (forall arranged before run after,
          Permutation arranged (pool_rows values) ->
          StronglySorted obs_le arranged ->
          arranged = before ++ run ++ after ->
          (forall o o', In o run -> In o' run -> flt_eqb (snd o) (snd o') = true) ->
          (forall o o', In o (before ++ after) -> In o' run ->
                        flt_eqb (snd o) (snd o') = false) ->
          forall i v, In (i, v) run ->
            nth_error values i = Some v /\
            exists r,
              nth_error (rank values) i = Some (Some r)
              /\ (r == inject_Z (Z.of_nat
                                   (list_sum (seq (S (length before)) (length run))))
                       / inject_Z (Z.of_nat (length run)))%Q)
    /\ (forall group_data group_names alpha show_details res,
          concat group_data = values ->
          calculate_kruskal_wallis chi2_sf group_data group_names alpha show_details
          = Return res ->
          map Value (all_data res) = values
          /\ map Rank (all_data res) = rank values).
Proof.
  intros values Hnan sorted.
  apply has_no_nan_spec in Hnan.
  assert (Hperm : Permutation sorted (pool_rows values)) by apply sort_obs_perm.
  assert (Hval : Forall obs_valued sorted).
  { apply sort_obs_valued. now apply pool_rows_valued. }
  assert (Hs : StronglySorted obs_le sorted).
  { apply sort_obs_sorted. now apply pool_rows_valued. }
  assert (Hrun : forall arranged before run after,
             Permutation arranged (pool_rows values) ->
             StronglySorted obs_le arranged ->
             arranged = before ++ run ++ after ->
             (forall o o', In o run -> In o' run -> flt_eqb (snd o) (snd o') = true) ->
             (forall o o', In o (before ++ after) -> In o' run ->
                           flt_eqb (snd o) (snd o') = false) ->
             forall i v, In (i, v) run ->
               nth_error values i = Some v /\
               exists r,
                 nth_error (rank values) i = Some (Some r)
                 /\ (r == inject_Z (Z.of_nat
                                      (list_sum (seq (S (length before)) (length run))))
                          / inject_Z (Z.of_nat (length run)))%Q).
  { intros arranged before run after Hp Hso Harr Heq Hmax i v Hin.
    destruct (run_mid_rank values arranged before run after Hnan Hp Hso Harr
                Heq Hmax i v Hin) as [Hrow Hrank].
    split; [exact Hrow|].
    exists (mean_position (length before) (length run)).
    split; [exact Hrank|]. unfold mean_position. apply Qred_correct. }
  split; [now split|]. split; [|split; [|split]].
  - intros gs1 g gs2 Hg.
    assert (Harr : sorted = concat gs1 ++ g ++ concat gs2).
    { rewrite <- (tie_groups_concat sorted), Hg, concat_app. reflexivity. }
    pose proof (tie_groups_ok sorted Hval Hs) as Hok. rewrite Hg in Hok.
    destruct (groups_ok_split gs1 g gs2 Hok) as (Hne & Heq & Hbelow & Habove).
    split; [exact Harr|]. split; [exact Hne|]. split; [exact Heq|].
    split; [exact Hbelow|]. split; [exact Habove|].
    apply (Hrun sorted (concat gs1) g (concat gs2) Hperm Hs Harr Heq).
    intros o o' Ho Ho'. apply in_app_or in Ho. destruct Ho as [Ho|Ho].
    + apply flt_ltb_not_eqb. now apply Hbelow.
    + rewrite flt_eqb_sym. apply flt_ltb_not_eqb. now apply Habove.
  - intros i v Hrow.
    assert (Hin : In (i, v) (concat (tie_groups sorted))).
    { rewrite tie_groups_concat. apply (Permutation_in _ (Permutation_sym Hperm)).
      now apply in_pool_rows. }
    apply in_concat in Hin. destruct Hin as (g & Hg & Hin).
    apply in_split in Hg. destruct Hg as (gs1 & gs2 & Hg).
    exists gs1, g, gs2. now split.
  - exact Hrun.
  - intros gd gn alpha sd res Hpool Hret. rewrite <- Hpool.
    exact (frame_rank_column chi2_sf gd gn alpha sd res Hret).
Qed.

(** C3.  For every valid input the rank sums [R_i] of the admitted groups
    add up to [N (N + 1) / 2], whatever the ties; and the ranks they sum are
    the [Rank] column of the returned frame. *)
Theorem rank_sum_invariant :
  forall group_data : list (list pyfloat),
    valid_input group_data = true ->
    let vg := valid_groups group_data in
    let n := Z.of_nat (length (concat vg)) in
    (Qsum (rank_sums vg) == inject_Z (n * (n + 1)) / 2)%Q
    /\ length (rank_sums vg) = length vg
    /\ forall group_names alpha show_details r,
         length group_names = length group_data ->
         calculate_kruskal_wallis chi2_sf group_data group_names alpha show_details
         = Return r ->
         map Rank (all_data r) = map Some (rankdata (concat vg)).
Proof.
  intros gd Hvalid vg n.
  destruct (valid_input_groups gd Hvalid) as [Hk Hn]. fold vg in Hk, Hn.
  split; [|split].
  - rewrite (rank_sums_total vg Hn). apply (rankdata_sum _ Hn).
  - unfold rank_sums. rewrite length_map.
    rewrite (rankdata_counts _ Hn), split_by_map. now rewrite length_map.
  - intros gn alpha sd r Hlen Hret.
    rewrite (calculate_eval chi2_sf gd gn alpha sd Hlen) in Hret.
    destruct (kruskal chi2_sf (valid_groups gd)) as [hp|e]; [|discriminate].
    simpl in Hret. injection Hret as <-. simpl.
    unfold ranks_frame. cbv zeta. rewrite map_map. simpl.
    rewrite pooled_data_concat. fold vg.
    rewrite <- (rank_no_nan _ Hn).
    set (labels := map _ (group_indices vg)).
    assert (Hl : length labels = length (concat vg)).
    { unfold labels. rewrite length_map. unfold group_indices, enumerate.
      generalize 0. clear. induction vg as [|g tl IH]; intros k; simpl; [reflexivity|].
      now rewrite !length_app, repeat_length, IH. }
    assert (Hr : length (rank (concat vg)) = length (concat vg)).
    { unfold rank. now rewrite length_map, length_seq. }
    clearbody labels. clear - Hl Hr.
    revert labels Hl Hr. generalize (rank (concat vg)). generalize (concat vg).
    induction l as [|a l IH]; intros [|q rk] [|b labels] Hl Hr; simpl in *;
      try discriminate; try reflexivity.
    f_equal. apply IH; lia.
Qed.

(** C4.  When every pooled observation is tied to every other, the
    computation raises [DegenerateInput] (the library's "All numbers are
    identical in kruskal"): no statistic, default or placeholder comes back,
    neither from [calculate_kruskal_wallis] nor through the button handler. *)
Theorem all_tied_is_degenerate :
  forall group_data group_names alpha show_details,
    length group_names = length group_data ->
    2 <= length (filter nonempty group_data) ->
    all_tied (concat (valid_groups group_data)) = true ->
    calculate_kruskal_wallis chi2_sf group_data group_names alpha show_details
    = Raise (DegenerateInput "All numbers are identical in kruskal")
    /\ (forallb nonempty group_data = true ->
        run_analysis chi2_sf group_data group_names alpha show_details
        = Raise (DegenerateInput "All numbers are identical in kruskal")).
Proof.
  intros gd gn alpha sd Hlen Hk Ht.
  assert (Hcalc : calculate_kruskal_wallis chi2_sf gd gn alpha sd
                  = Raise (DegenerateInput "All numbers are identical in kruskal")).
  { rewrite (calculate_eval chi2_sf gd gn alpha sd Hlen).
    rewrite kruskal_eval; [|exact Hk|now apply all_tied_no_nan].
    assert (E : Qeq_bool (tiecorrect (concat (valid_groups gd))) 0 = true).
    { apply Qeq_bool_iff. apply tiecorrect_tied; [|exact Ht].
      now apply two_groups_two_values. }
    rewrite E. reflexivity. }
  split; [exact Hcalc|].
  intros Hall. unfold run_analysis.
  destruct (Nat.ltb_spec (length (filter nonempty gd)) 2) as [|_]; [lia|].
  rewrite Hall. simpl. exact Hcalc.
Qed.

(** C1.  For every valid input whose pooled values are all distinct, the
    tie-correction factor is 1 and the returned H is the classical untied
    statistic [12 / (N (N+1)) * sum_i R_i^2 / n_i - 3 (N+1)], where [n_i] is
    the size of the [i]-th non-empty group and [R_i] its rank sum: the sum,
    over the values [v] of that group, of the rank of [v], which without ties
    is the position of [v] in the sorted pool, one more than the number of
    pooled observations smaller than [v].  These ranks are the [Rank] column
    of the returned frame, and these sums are the rank sums the statistic is
    computed from. *)
Theorem untied_statistic :
  forall group_data group_names alpha show_details,
    length group_names = length group_data ->
    valid_input group_data = true ->
    all_distinct (concat (valid_groups group_data)) = true ->
    let vg := valid_groups group_data in
    let pool := concat vg in
    let position v := inject_Z (Z.of_nat (S (count_lt v pool))) in
    let R g := Qsum (map position g) in
    (tiecorrect pool == 1)%Q
    /\ exists r h,
         calculate_kruskal_wallis chi2_sf group_data group_names alpha show_details
         = Return r
         /\ h_stat r = Finite h
         /\ (h == classical_H (map R vg) (map (@length pyfloat) vg))%Q
         /\ map Value (all_data r) = pool
         /\ map Rank (all_data r) = map (fun v => Some (position v)) pool
         /\ rank_sums vg = map R vg
         /\ (h == classical_H (rank_sums vg) (map (@length pyfloat) vg))%Q
         /\ df r = (Z.of_nat (length vg) - 1)%Z
         /\ p_val r = Finite (chi2_sf h (df r)).
Proof.
  intros gd gn alpha sd Hlen Hvalid Hd vg pool position R.
  destruct (valid_input_groups gd Hvalid) as [Hk Hn]. fold vg in Hk, Hn.
  fold pool in Hn, Hd.
  pose proof (tiecorrect_distinct _ Hn Hd) as HC.
  split; [exact HC|].
  assert (Hsums : rank_sums vg = map R vg).
  { rewrite (rank_sums_counts vg Hn). apply map_ext_in. intros g Hg.
    unfold R. f_equal. apply map_ext_in. intros v Hv.
    apply (untied_rank pool v Hn Hd). apply in_concat. now exists g. }
  assert (Hranks : rank pool = map (fun v => Some (position v)) pool).
  { rewrite rank_counts. apply map_ext_in. intros v Hv.
    apply (untied_rank pool v Hn Hd Hv). }
  assert (Hret : exists r h,
             calculate_kruskal_wallis chi2_sf gd gn alpha sd = Return r
             /\ h_stat r = Finite h
             /\ (h == classical_H (rank_sums vg) (map (@length pyfloat) vg))%Q
             /\ df r = (Z.of_nat (length vg) - 1)%Z
             /\ p_val r = Finite (chi2_sf h (df r))).
  { rewrite (calculate_eval chi2_sf gd gn alpha sd Hlen).
    rewrite (kruskal_eval chi2_sf gd Hk Hn). fold vg. fold pool.
    destruct (Qeq_bool (tiecorrect pool) 0) eqn:E.
    { apply Qeq_bool_iff in E. rewrite HC in E. discriminate. }
    cbv zeta. unfold bind.
    eexists. eexists. split; [reflexivity|].
    split; [reflexivity|]. split; [|split; reflexivity].
    rewrite Qred_correct, HC, <- h_raw_classical. field. }
  destruct Hret as (r & h & Hcalc & Hh & HH & Hdf & Hp).
  destruct (frame_rank_column chi2_sf gd gn alpha sd r Hcalc) as [Hvalues Hcolumn].
  rewrite <- (concat_valid_groups gd) in Hvalues, Hcolumn.
  fold vg in Hvalues, Hcolumn. fold pool in Hvalues, Hcolumn.
  exists r, h. split; [exact Hcalc|]. split; [exact Hh|].
  split; [now rewrite <- Hsums|]. split; [exact Hvalues|].
  split; [now rewrite Hcolumn|]. split; [exact Hsums|].
  split; [exact HH|]. now split.
Qed.

(** C6.  With fewer than two non-empty groups the handler shows "Please
    enter data for at least 2 groups." and computes nothing; called directly,
    [calculate_kruskal_wallis] is stopped by the library's own check. *)
Theorem too_few_groups :
  forall group_data group_names alpha show_details,
    length (filter nonempty group_data) < 2 ->
    run_analysis chi2_sf group_data group_names alpha show_details
    = Raise (InvalidInput "Please enter data for at least 2 groups.")
    /\ (length group_names = length group_data ->
        calculate_kruskal_wallis chi2_sf group_data group_names alpha show_details
        = Raise (InvalidInput "Need at least two groups in stats.kruskal()")).
Proof.
  intros gd gn alpha sd Hk. split.
  - unfold run_analysis.
    destruct (Nat.ltb_spec (length (filter nonempty gd)) 2) as [_|]; [reflexivity|lia].
  - intros Hlen. rewrite (calculate_eval chi2_sf gd gn alpha sd Hlen).
    now rewrite (kruskal_few chi2_sf gd Hk).
Qed.

(** C5, as the code has it.  [InvalidInput] depends on the sizes of the
    groups only: an input is rejected with it exactly when fewer than two
    groups are non-empty or some group is empty.  The values are never
    inspected, so a NaN or an infinite observation in groups that pass the
    size checks goes on to pooling and ranking. *)
Theorem invalid_input_by_size_only :
  forall group_data group_names alpha show_details,
    (exists msg,
        run_analysis chi2_sf group_data group_names alpha show_details
        = Raise (InvalidInput msg))
    <-> (length (filter nonempty group_data) < 2
         \/ forallb nonempty group_data = false).
Proof.
  intros gd gn alpha sd. unfold run_analysis.
  destruct (Nat.ltb_spec (length (filter nonempty gd)) 2) as [Hk|Hk].
  { split; [intros _; now left|]. intros _. eexists. reflexivity. }
  destruct (forallb nonempty gd) eqn:Hall; simpl.
  2:{ split; [intros _; now right|]. intros _. eexists. reflexivity. }
  split; [|intros [H|H]; [lia|discriminate]].
  intros [msg H]. exfalso.
  unfold calculate_kruskal_wallis in H.
  destruct (valid_names gd gn) as [vn|e] eqn:Hvn; simpl in H.
  2:{ injection H as ->.
      destruct (valid_names_of_error _ _ _ Hvn) as [m Hm]. discriminate. }
  unfold kruskal in H. fold (valid_groups gd) in Hk.
  destruct (Nat.ltb_spec (length (valid_groups gd)) 2) as [|_]; [lia|].
  destruct (existsb _ (valid_groups gd)); [discriminate|].
  destruct (existsb _ (valid_groups gd)); [discriminate|].
  destruct (Qeq_bool _ 0); discriminate.
Qed.

(** C7, as the code has it.  [calculate_kruskal_wallis] drops the empty
    groups: on an input with empty groups and at least two non-empty ones it
    computes what it computes on the non-empty groups alone, with
    [df = k - 1] for the [k] non-empty groups, and it returns unless all
    pooled values are tied.  The button handler never lets it: an input with
    an empty group is refused with "All groups must have at least one
    value." *)
Theorem empty_groups_dropped_or_refused :
  forall group_data group_names alpha show_details,
    length group_names = length group_data ->
    2 <= length (filter nonempty group_data) ->
    forallb nonempty group_data = false ->
    let vg := valid_groups group_data in
    let vn := map snd (kept_pairs group_data group_names) in
    run_analysis chi2_sf group_data group_names alpha show_details
    = Raise (InvalidInput "All groups must have at least one value.")
    /\ calculate_kruskal_wallis chi2_sf group_data group_names alpha show_details
       = calculate_kruskal_wallis chi2_sf vg vn alpha show_details
    /\ (forall r,
          calculate_kruskal_wallis chi2_sf group_data group_names alpha show_details
          = Return r ->
          df r = (Z.of_nat (length (filter nonempty group_data)) - 1)%Z
          /\ map Value (all_data r) = concat vg)
    /\ (all_tied (concat vg) = false ->
        exists r,
          calculate_kruskal_wallis chi2_sf group_data group_names alpha show_details
          = Return r).
Proof.
  intros gd gn alpha sd Hlen Hk Hempty vg vn.
  assert (Hvn : length vn = length vg) by now apply kept_names_length.
  split; [|split; [|split]].
  - unfold run_analysis.
    destruct (Nat.ltb_spec (length (filter nonempty gd)) 2) as [|_]; [lia|].
    now rewrite Hempty.
  - rewrite (calculate_eval chi2_sf gd gn alpha sd Hlen).
    rewrite (calculate_eval chi2_sf vg vn alpha sd Hvn).
    unfold vg, vn. now rewrite valid_groups_idem, (kept_pairs_idem gd gn Hlen).
  - intros r Hr. rewrite (calculate_eval chi2_sf gd gn alpha sd Hlen) in Hr.
    destruct (kruskal chi2_sf (valid_groups gd)) as [hp|e]; [|discriminate].
    unfold bind in Hr. injection Hr as <-. cbn [df all_data].
    split; [reflexivity|]. now apply ranks_frame_values.
  - intros Ht. rewrite (calculate_eval chi2_sf gd gn alpha sd Hlen).
    fold vg. fold vg in Hk.
    destruct (existsb (existsb is_nan) vg) eqn:Hnan.
    + unfold vg. rewrite (kruskal_nan chi2_sf gd Hk Hnan).
      eexists. reflexivity.
    + apply existsb_no_nan in Hnan.
      unfold vg. rewrite (kruskal_eval chi2_sf gd Hk Hnan). fold vg.
      destruct (Qeq_bool (tiecorrect (concat vg)) 0) eqn:E.
      * apply Qeq_bool_iff in E. now apply tiecorrect_not_tied in E.
      * eexists. reflexivity.
Qed.

(** C10.  The names stay aligned with the groups through the two filters:
    the retained (group, name) pairs are exactly the caller's pairs, taken
    at one index, whose group is not empty; main.py:166-167 return their
    groups and their names, and do return them when there is a name for
    every group.  Every row of a returned frame pairs an observation with
    the name the caller gave to its group, and the mean rank reported under
    a name is the mean of the pooled ranks of the observations of the groups
    that carry this name. *)
Theorem names_stay_aligned :
  forall group_data group_names,
    let kept := kept_pairs group_data group_names in
    (forall g nm,
        In (g, nm) kept <->
        nonempty g = true
        /\ exists i, nth_error group_data i = Some g
                     /\ nth_error group_names i = Some nm)
    /\ (length group_names = length group_data ->
        valid_names group_data group_names = Return (map snd kept))
    /\ (forall vn,
          valid_names group_data group_names = Return vn ->
          combine (valid_groups group_data) vn = kept)
    /\ forall alpha show_details r,
         calculate_kruskal_wallis chi2_sf group_data group_names alpha show_details
         = Return r ->
         map (fun rw => (Value rw, Group rw)) (all_data r) = labelled kept
         /\ forall nm m,
              In (nm, m) (mean_ranks r) ->
              m = mean (map (rank_by_counts (concat (map fst kept)))
                            (concat (map fst
                               (filter (fun gn => String.eqb (snd gn) nm) kept)))).
Proof.
  intros gd gn kept. split; [|split; [|split]].
  - intros g nm. unfold kept, kept_pairs. rewrite filter_In, in_combine_nth.
    simpl. tauto.
  - now apply valid_names_pairs.
  - intros vn Hvn. destruct (valid_names_kept gd gn vn Hvn) as [-> ->].
    apply combine_fst_snd.
  - intros alpha sd r Hr.
    destruct (calculate_return chi2_sf gd gn alpha sd r Hr)
      as (_ & _ & hp & _ & ->).
    cbn [all_data mean_ranks]. fold kept.
    rewrite ranks_frame_pairs.
    split.
    + rewrite map_map. simpl. rewrite <- (map_id (labelled kept)) at 2.
      apply map_ext. now intros [v n].
    + intros nm m Hin. apply groupby_mean_in in Hin. subst m. f_equal.
      rewrite (filter_map_comm (fun r => String.eqb (Group r) nm)). simpl.
      rewrite (filter_labelled nm kept), map_map. simpl.
      set (named := filter _ kept).
      rewrite <- (labelled_fst_pairs named), map_map. reflexivity.
Qed.

(** C9, as the code has it.  The per-group summaries come from
    [groupby('Group')], which sorts its keys: they are listed in strictly
    ascending code-point order of the group names, one per name carried by
    an admitted group, whatever the order of the input. *)
Theorem summaries_sorted_by_name :
  forall group_data group_names alpha show_details r,
    calculate_kruskal_wallis chi2_sf group_data group_names alpha show_details
    = Return r ->
    StronglySorted string_lt (map fst (mean_ranks r))
    /\ forall nm,
         In nm (map fst (mean_ranks r)) <->
         In nm (map snd (kept_pairs group_data group_names)).
Proof.
  intros gd gn alpha sd r Hr.
  destruct (calculate_return chi2_sf gd gn alpha sd r Hr)
    as (_ & _ & hp & _ & ->).
  cbn [mean_ranks].
  unfold groupby_mean. rewrite map_map. simpl. rewrite map_id.
  split; [apply group_keys_sorted|].
  intros nm. rewrite group_keys_in.
  rewrite ranks_frame_pairs, map_map. simpl.
  apply labelled_names_in. apply kept_pairs_nonempty.
Qed.



End Claims.

(* ================================================================== *)
(** * Concrete runs *)

Example rank_5_7_7_9 :
  rank (fin [5; 7; 7; 9]%Q) = [Some 1; Some (5 # 2); Some (5 # 2); Some 4]%Q.
Proof. reflexivity. Qed.

Example rank_ties_example :
  rank (concat ties_example)
  = [Some 1; Some 3; Some 3; Some 5; Some 3; Some 6; Some 7; Some 8; Some 9; Some 10]%Q.
Proof. reflexivity. Qed.

Example rank_7_5_7 :
  rank (fin [7; 5; 7]%Q) = [Some (5 # 2); Some 1; Some (5 # 2)]%Q.
Proof. reflexivity. Qed.

Example rank_column_5_7_7_9 :
  exists r,
    calculate_kruskal_wallis sf_markov [fin [5; 7]%Q; fin [7; 9]%Q] two_names
      (5 # 100) false = Return r
    /\ map Rank (all_data r) = [Some 1; Some (5 # 2); Some (5 # 2); Some 4]%Q.
Proof. eexists. split; reflexivity. Qed.

Example main_example :
  exists r,
    main sf_markov
      [("Treatment A"%string, Numbers (fin [8.5; 9.2; 9.6; 8.8; 9.1; 9.3]%Q));
       ("Treatment B"%string, Numbers (fin [7.5; 7.8; 8.2; 7.1; 7.3; 7.6]%Q));
       ("Control Group"%string, Numbers (fin [6.5; 6.8; 6.2; 6.9; 6.4; 6.3]%Q))]
      (5 # 100) false = Return r
    /\ h_stat r = Finite (288 # 19) /\ df r = 2%Z.
Proof. eexists. split; [reflexivity|]. split; reflexivity. Qed.

Lemma mid_rank_of_tie_group_witness :
  nth_error (fin [7; 9; 5; 7]%Q) 3 = Some (Finite 7)
  /\ exists r,
       nth_error (rank (fin [7; 9; 5; 7]%Q)) 3 = Some (Some r)
       /\ (r == inject_Z (Z.of_nat (2 + 3)) / inject_Z (Z.of_nat 2))%Q.
Proof.
  assert (Hnan : forallb (fun v => negb (is_nan v)) (fin [7; 9; 5; 7]%Q) = true)
    by reflexivity.
  pose proof (mid_rank_of_tie_group sf_markov (fin [7; 9; 5; 7]%Q) Hnan)
    as (_ & Hgroups & _).
  exact (proj2 (proj2 (proj2 (proj2 (proj2
           (Hgroups [[(2, Finite 5)]] [(0, Finite 7); (3, Finite 7)]
                    [[(1, Finite 9)]] eq_refl)))))
           3 (Finite 7) (or_intror (or_introl eq_refl))).
Defined.

Lemma rank_sum_invariant_witness :
  valid_input ties_example = true
  /\ (Qsum (rank_sums (valid_groups ties_example)) == inject_Z (10 * 11) / 2)%Q.
Proof.
  split; [reflexivity|].
  exact (proj1 (rank_sum_invariant sf_markov ties_example eq_refl)).
Defined.

Lemma all_tied_is_degenerate_witness :
  all_tied (concat (valid_groups identical_example)) = true
  /\ calculate_kruskal_wallis sf_markov identical_example default_names (5 # 100) false
     = Raise (DegenerateInput "All numbers are identical in kruskal").
Proof.
  split; [reflexivity|].
  assert (Hk : 2 <= length (filter nonempty identical_example)) by (simpl; lia).
  exact (proj1 (all_tied_is_degenerate sf_markov identical_example default_names
                  (5 # 100) false eq_refl Hk eq_refl)).
Defined.

Lemma untied_statistic_witness :
  all_distinct (concat (valid_groups example_data)) = true
  /\ (tiecorrect (concat (valid_groups example_data)) == 1)%Q
  /\ exists r h,
       calculate_kruskal_wallis sf_markov example_data example_names (5 # 100) false
       = Return r
       /\ h_stat r = Finite h
       /\ (h == classical_H [93; 57; 21] [6; 6; 6]%nat)%Q
       /\ (h == 288 # 19)%Q
       /\ map Rank (all_data r)
          = map Some [13; 16; 18; 14; 15; 17; 9; 11; 12; 7; 8; 10; 4; 5; 1; 6; 3; 2]%Q
       /\ rank_sums (valid_groups example_data) = [93; 57; 21]%Q
       /\ df r = 2%Z.
Proof.
  split; [reflexivity|].
  destruct (untied_statistic sf_markov example_data example_names (5 # 100)%Q false
              eq_refl eq_refl eq_refl)
    as (HC & r & h & Hcalc & Hh & HH & _ & Hcolumn & Hsums & _ & Hdf & _).
  split; [exact HC|].
  exists r, h. split; [exact Hcalc|]. split; [exact Hh|].
  split; [apply (Qeq_trans _ _ _ HH); vm_compute; reflexivity|].
  split; [apply (Qeq_trans _ _ _ HH); vm_compute; reflexivity|].
  split; [exact Hcolumn|]. split; [exact Hsums|]. exact Hdf.
Defined.

Lemma too_few_groups_witness :
  run_analysis sf_markov [fin [1; 2]%Q; []; []] default_names (5 # 100) false
  = Raise (InvalidInput "Please enter data for at least 2 groups.").
Proof.
  assert (Hk : length (filter nonempty [fin [1; 2]%Q; []; []]) < 2) by (simpl; lia).
  exact (proj1 (too_few_groups sf_markov [fin [1; 2]%Q; []; []] default_names
                  (5 # 100) false Hk)).
Defined.

Lemma empty_groups_dropped_or_refused_witness :
  run_analysis sf_markov gap_example default_names (5 # 100) false
  = Raise (InvalidInput "All groups must have at least one value.")
  /\ calculate_kruskal_wallis sf_markov gap_example default_names (5 # 100) false
     = calculate_kruskal_wallis sf_markov two_groups ["Group 1"; "Group 3"]%string
         (5 # 100) false.
Proof.
  assert (H := empty_groups_dropped_or_refused sf_markov gap_example default_names
                 (5 # 100) false eq_refl).
  simpl in H. specialize (H ltac:(lia) eq_refl).
  destruct H as (H1 & H2 & _). split; [exact H1|exact H2].
Defined.

Lemma names_stay_aligned_witness :
  exists r,
    calculate_kruskal_wallis sf_markov gap_example default_names (5 # 100) false
    = Return r
    /\ map (fun rw => (Value rw, Group rw)) (all_data r)
       = [(Finite 1, "Group 1"%string); (Finite 2, "Group 1"%string);
          (Finite 3, "Group 3"%string); (Finite 4, "Group 3"%string)].
Proof.
  eexists. split; [reflexivity|].
  exact (proj1 (proj2 (proj2 (proj2
           (names_stay_aligned sf_markov gap_example default_names)))
           (5 # 100)%Q false _ eq_refl)).
Defined.

Lemma summaries_sorted_by_name_witness :
  StronglySorted string_lt ["Control Group"; "Treatment A"; "Treatment B"]%string.
Proof.
  exact (proj1 (summaries_sorted_by_name sf_markov example_data example_names
                  (5 # 100) false _ eq_refl)).
Defined.


(** C5, refuted as stated: the group "1, inf" holds a non-finite observation;
    the input is not rejected, the infinite value is ranked last and a
    statistic comes back. *)
Lemma non_finite_not_rejected :
  all_finite infinite_example = false
  /\ exists r,
       run_analysis sf_markov infinite_example ["Group 1"; "Group 2"]%string (5 # 100) false
       = Return r
       /\ h_stat r = Finite 0
       /\ map Rank (all_data r) = [Some 1; Some 4; Some 2; Some 3]%Q.
Proof.
  split; [reflexivity|]. eexists. split; [reflexivity|]. split; reflexivity.
Qed.

(** C7, refuted as stated: one empty group among three, two non-empty; the
    handler refuses the input and nothing is computed. *)
Lemma empty_group_refused :
  length (filter nonempty gap_example) = 2
  /\ run_analysis sf_markov gap_example default_names (5 # 100) false
     = Raise (InvalidInput "All groups must have at least one value.").
Proof. split; reflexivity. Qed.

(** C9, refuted as stated: on the script's own example the summaries come out
    in name order, "Control Group" first, not in the order of the input. *)
Lemma summaries_not_in_input_order :
  exists r,
    calculate_kruskal_wallis sf_markov example_data example_names (5 # 100) false
    = Return r
    /\ map fst (mean_ranks r) = ["Control Group"; "Treatment A"; "Treatment B"]%string
    /\ map fst (mean_ranks r) <> example_names.
Proof.
  eexists. split; [reflexivity|]. split; [reflexivity|]. discriminate.
Qed.


(* ================================================================== *)
(** * Further properties of [calculate_kruskal_wallis] *)

Lemma kruskal_raise chi2_sf samples e :
  kruskal chi2_sf samples = Raise e ->
  (length samples < 2
   /\ e = InvalidInput "Need at least two groups in stats.kruskal()")
  \/ (2 <= length samples
      /\ existsb (existsb is_nan) samples = false
      /\ Qeq_bool (tiecorrect (concat samples)) 0 = true
      /\ e = DegenerateInput "All numbers are identical in kruskal").
Proof.
  unfold kruskal.
  destruct (Nat.ltb_spec (length samples) 2) as [Hk|Hk].
  - intros [= <-]. left. now split.
  - destruct (existsb _ samples); [discriminate|].
    destruct (existsb (existsb is_nan) samples); [discriminate|].
    destruct (Qeq_bool _ 0) eqn:E; [|discriminate].
    intros [= <-]. right. repeat split; assumption.
Qed.

(** The lookup of main.py:167 fails exactly when a non-empty group sits at
    an index that has no name. *)
Lemma valid_names_of_raise gd : forall k gn,
  (exists e, valid_names_of (enumerate_from k gd) gn = Raise e) <->
  (exists i g, nth_error gd i = Some g /\ nonempty g = true
               /\ nth_error gn (k + i) = None).
Proof.
  induction gd as [|g gd IH]; intros k gn; simpl.
  - split; [intros [e H]; discriminate|].
    intros (i & g & H & _). destruct i; discriminate.
  - destruct (nonempty g) eqn:E.
    + destruct (nth_error gn k) as [nm|] eqn:Hn.
      * destruct (valid_names_of (enumerate_from (S k) gd) gn) as [rest|e0] eqn:Hr.
        -- simpl. split; [intros [e H]; discriminate|].
           intros (i & g' & Hi & Hg & Hnone). exfalso.
           destruct i as [|i]; simpl in Hi.
           ++ rewrite Nat.add_0_r in Hnone. congruence.
           ++ assert (Hex : exists e, valid_names_of (enumerate_from (S k) gd) gn = Raise e).
              { apply IH. exists i, g'. repeat split; try assumption.
                now replace (S k + i) with (k + S i) by lia. }
              destruct Hex as [e He]. congruence.
        -- simpl. split; [|intros _; now exists e0].
           intros _.
           assert (Hex : exists e, valid_names_of (enumerate_from (S k) gd) gn = Raise e)
             by now exists e0.
           apply IH in Hex. destruct Hex as (i & g' & Hi & Hg & Hnone).
           exists (S i), g'. repeat split; try assumption.
           now replace (k + S i) with (S k + i) by lia.
      * split; [|intros _; eexists; reflexivity].
        intros _. exists 0, g. rewrite Nat.add_0_r. now repeat split.
    + rewrite IH. split.
      * intros (i & g' & Hi & Hg & Hnone). exists (S i), g'.
        repeat split; try assumption.
        now replace (k + S i) with (S k + i) by lia.
      * intros (i & g' & Hi & Hg & Hnone). destruct i as [|i]; simpl in Hi.
        -- injection Hi as <-. congruence.
        -- exists i, g'. repeat split; try assumption.
           now replace (S k + i) with (k + S i) by lia.
Qed.

Lemma count_lt_eq_le v l : count_lt v l + count_eq v l <= length l.
Proof.
  unfold count_lt, count_eq. induction l as [|a l IH]; simpl; [lia|].
  destruct (flt_ltb a v) eqn:E1, (flt_eqb a v) eqn:E2; simpl; try lia.
  apply flt_ltb_not_eqb in E1. congruence.
Qed.

Lemma count_eq_pos v l : valued v -> In v l -> 1 <= count_eq v l.
Proof.
  intros Hv Hin. induction l as [|a l IH]; [contradiction|].
  rewrite count_eq_cons. destruct Hin as [->|Hin].
  - rewrite (flt_eqb_refl v Hv). lia.
  - specialize (IH Hin). lia.
Qed.

Lemma count_lt_mono v w l :
  flt_ltb v w = true -> count_lt v l + count_eq v l <= count_lt w l.
Proof.
  intros H. unfold count_lt, count_eq.
  induction l as [|a l IH]; simpl; [lia|].
  destruct (flt_ltb a v) eqn:E1, (flt_eqb a v) eqn:E2,
           (flt_ltb a w) eqn:E3; simpl; try lia.
  - apply flt_ltb_not_eqb in E1. congruence.
  - apply flt_ltb_not_eqb in E1. congruence.
  - rewrite (flt_ltb_trans a v w E1 H) in E3. discriminate.
  - rewrite (flt_eqb_ltb_l a v w E2), H in E3. discriminate.
Qed.

Lemma half_le (a b : Z) : (a <= 2 * b)%Z -> (inject_Z a / 2 <= inject_Z b)%Q.
Proof.
  intros H. unfold Qle, Qdiv, Qmult, Qinv, inject_Z. simpl. lia.
Qed.

Lemma le_half (a b : Z) : (2 * a <= b)%Z -> (inject_Z a <= inject_Z b / 2)%Q.
Proof.
  intros H. unfold Qle, Qdiv, Qmult, Qinv, inject_Z. simpl. lia.
Qed.

Lemma half_lt_half (a b : Z) : (a < b)%Z -> (inject_Z a / 2 < inject_Z b / 2)%Q.
Proof.
  intros H. unfold Qlt, Qdiv, Qmult, Qinv, inject_Z. simpl. lia.
Qed.

Lemma mean_position_bounds p t n :
  t <> 0 -> p + t <= n ->
  (1 <= mean_position p t)%Q /\ (mean_position p t <= inject_Z (Z.of_nat n))%Q.
Proof.
  intros Ht Hn. rewrite (mean_position_closed p t Ht). split.
  - apply (le_half 1). lia.
  - apply half_le. lia.
Qed.

Lemma mean_position_lt p t p' t' :
  t <> 0 -> t' <> 0 -> p + t <= p' ->
  (mean_position p t < mean_position p' t')%Q.
Proof.
  intros Ht Ht' H.
  rewrite (mean_position_closed p t Ht), (mean_position_closed p' t' Ht').
  apply half_lt_half. lia.
Qed.


Lemma existsb_nan_valid gd :
  existsb (existsb is_nan) (valid_groups gd) = existsb (existsb is_nan) gd.
Proof.
  unfold valid_groups. induction gd as [|g gd IH]; simpl; [reflexivity|].
  destruct g as [|v g]; simpl; [exact IH|]. now rewrite IH.
Qed.

Lemma count_eqb_compat v w l :
  flt_eqb v w = true -> count_lt v l = count_lt w l /\ count_eq v l = count_eq w l.
Proof.
  intros H. unfold count_lt, count_eq. split; f_equal; apply filter_ext; intros a.
  - now apply flt_eqb_ltb_r.
  - now apply flt_eqb_eqb_r.
Qed.

Lemma rank_by_counts_none pool v : rank_by_counts pool v = None <-> is_nan v = true.
Proof.
  unfold rank_by_counts. destruct (is_nan v); split; intros; congruence.
Qed.

Lemma rank_by_counts_some pool v q :
  rank_by_counts pool v = Some q -> valued v /\ q = midrank pool v.
Proof.
  unfold rank_by_counts, valued, midrank. destruct (is_nan v); [discriminate|].
  intros [= <-]. now split.
Qed.

Lemma strictly_sorted_NoDup l : StronglySorted string_lt l -> NoDup l.
Proof.
  induction 1 as [|a l Hs IH Ha]; constructor; [|exact IH].
  intros Hin. rewrite Forall_forall in Ha.
  apply (string_lt_irrefl a). now apply Ha.
Qed.

Lemma filter_length_none_nil {A : Type} (f : A -> bool) (l : list A) :
  (forall x, In x l -> f x = false) -> filter f l = [].
Proof.
  induction l as [|a l IH]; simpl; intros H; [reflexivity|].
  rewrite (H a (or_introl eq_refl)). apply IH. intros; apply H; now right.
Qed.

Lemma filter_unique_name (pairs : list (list pyfloat * string)) g nm :
  NoDup (map snd pairs) -> In (g, nm) pairs ->
  filter (fun gn => String.eqb (snd gn) nm) pairs = [(g, nm)].
Proof.
  induction pairs as [|[g' n'] l IH]; simpl; intros Hnd Hin; [contradiction|].
  inversion Hnd as [|? ? Hnot Hnd']; subst.
  destruct Hin as [[= -> ->]|Hin].
  - rewrite String.eqb_refl. f_equal.
    apply filter_length_none_nil. intros [g2 n2] H2. simpl.
    apply String.eqb_neq. intros ->. apply Hnot.
    apply in_map_iff. now exists (g2, nm).
  - destruct (String.eqb n' nm) eqn:E.
    + apply String.eqb_eq in E. subst n'. exfalso. apply Hnot.
      apply in_map_iff. now exists (g, nm).
    + now apply IH.
Qed.

Lemma somes_map_some (l : list Q) : somes (map Some l) = l.
Proof. induction l; simpl; congruence. Qed.

(** The summary reported under a name of the frame built from [pairs]. *)
Lemma groupby_mean_frame (pairs : list (list pyfloat * string)) nm :
  (forall gn, In gn pairs -> nonempty (fst gn) = true) ->
  In nm (map snd pairs) ->
  In (nm,
      mean (map (rank_by_counts (concat (map fst pairs)))
                (concat (map fst (filter (fun gn => String.eqb (snd gn) nm) pairs)))))
     (groupby_mean (ranks_frame (map fst pairs) (map snd pairs))).
Proof.
  intros Hne Hin. unfold groupby_mean. apply in_map_iff. exists nm. split.
  - f_equal. f_equal. rewrite ranks_frame_pairs.
    rewrite (filter_map_comm (fun r => String.eqb (Group r) nm)). simpl.
    rewrite (filter_labelled nm pairs), map_map. simpl.
    set (named := filter _ pairs).
    rewrite <- (labelled_fst_pairs named), map_map. reflexivity.
  - apply group_keys_in. rewrite ranks_frame_pairs, map_map. simpl.
    now apply labelled_names_in.
Qed.

Section CalculateProperties.

Variable chi2_sf : Q -> Z -> Q.

(** X1.  [calculate_kruskal_wallis] raises [IndexError] exactly when some
    non-empty group sits at an index for which [group_names] has no entry;
    an empty group beyond the end of the names is harmless. *)
Theorem index_error_iff_name_missing :
  forall group_data group_names alpha show_details,
    (exists msg,
        calculate_kruskal_wallis chi2_sf group_data group_names alpha show_details
        = Raise (IndexError msg))
    <-> (exists i g,
            nth_error group_data i = Some g /\ nonempty g = true
            /\ length group_names <= i).
Proof.
  intros gd gn alpha sd.
  pose proof (valid_names_of_raise gd 0 gn) as Hv. simpl in Hv.
  fold (enumerate gd) in Hv. fold (valid_names gd gn) in Hv.
  assert (Hiff : (exists i g, nth_error gd i = Some g /\ nonempty g = true
                              /\ nth_error gn i = None)
                 <-> (exists i g, nth_error gd i = Some g /\ nonempty g = true
                                  /\ length gn <= i)).
  { split; intros (i & g & H1 & H2 & H3); exists i, g; repeat split;
      try assumption; now apply nth_error_None. }
  rewrite <- Hiff, <- Hv. unfold calculate_kruskal_wallis. split.
  - intros [msg H]. destruct (valid_names gd gn) as [vn|e]; [|now exists e].
    exfalso. unfold bind in H.
    destruct (kruskal chi2_sf (valid_groups gd)) as [hp|e] eqn:Hk; [discriminate|].
    injection H as ->. apply kruskal_raise in Hk.
    destruct Hk as [[_ Hk]|(_ & _ & _ & Hk)]; discriminate.
  - intros [e H]. rewrite H. simpl.
    destruct (valid_names_of_error _ _ _ H) as [m ->]. now exists m.
Qed.

End CalculateProperties.

Lemma df_viz_from (pairs : list (list pyfloat * string)) : forall acc,
  fold_left
    (fun acc gn =>
       if nonempty (fst gn) then acc ++ map (fun v => (v, snd gn)) (fst gn)
       else acc)
    pairs acc
  = acc ++ labelled (filter (fun gn => nonempty (fst gn)) pairs).
Proof.
  unfold labelled.
  induction pairs as [|[g n] l IH]; intros acc; simpl; [now rewrite app_nil_r|].
  rewrite IH. destruct (nonempty g); simpl; [|reflexivity].
  now rewrite <- app_assoc.
Qed.

Lemma df_viz_labelled gd gn : df_viz gd gn = labelled (kept_pairs gd gn).
Proof. unfold df_viz. now rewrite df_viz_from. Qed.

Lemma frame_columns (pairs : list (list pyfloat * string)) :
  map (fun rw => (Value rw, Group rw)) (ranks_frame (map fst pairs) (map snd pairs))
  = labelled pairs.
Proof.
  rewrite ranks_frame_pairs, map_map. simpl.
  rewrite <- (map_id (labelled pairs)) at 2. apply map_ext. now intros [v n].
Qed.

Lemma frame_row_in (pairs : list (list pyfloat * string)) rw :
  In rw (ranks_frame (map fst pairs) (map snd pairs)) ->
  In (Value rw) (concat (map fst pairs))
  /\ Rank rw = rank_by_counts (concat (map fst pairs)) (Value rw).
Proof.
  rewrite ranks_frame_pairs. intros H. apply in_map_iff in H.
  destruct H as (x & <- & Hx). simpl. split; [|reflexivity].
  rewrite <- labelled_fst_pairs. apply in_map_iff. now exists x.
Qed.

Lemma frame_length (pairs : list (list pyfloat * string)) :
  length (ranks_frame (map fst pairs) (map snd pairs))
  = length (concat (map fst pairs)).
Proof.
  now rewrite ranks_frame_pairs, length_map, <- labelled_fst_pairs, length_map.
Qed.

Section FrameProperties.

Variable chi2_sf : Q -> Z -> Q.

(** X5.  In the returned frame a row has no rank exactly when its value is
    NaN; every rank lies between 1 and the number of rows; rows with equal
    values have the same rank and a smaller value has a strictly smaller
    rank. *)
Theorem ranks_respect_values :
  forall group_data group_names alpha show_details r,
    calculate_kruskal_wallis chi2_sf group_data group_names alpha show_details
    = Return r ->
    forall rw, In rw (all_data r) ->
      (Rank rw = None <-> is_nan (Value rw) = true)
      /\ (forall q, Rank rw = Some q ->
            (1 <= q)%Q /\ (q <= inject_Z (Z.of_nat (length (all_data r))))%Q)
      /\ forall rw' q q',
           In rw' (all_data r) -> Rank rw = Some q -> Rank rw' = Some q' ->
           (flt_eqb (Value rw) (Value rw') = true -> q = q')
           /\ (flt_ltb (Value rw) (Value rw') = true -> (q < q')%Q).
Proof.
  intros gd gn alpha sd r Hr.
  destruct (calculate_return chi2_sf gd gn alpha sd r Hr)
    as (_ & _ & hp & _ & ->).
  cbn [all_data]. set (kept := kept_pairs gd gn).
  intros rw Hin. destruct (frame_row_in kept rw Hin) as [Hv Hrk].
  rewrite frame_length. set (pool := concat (map fst kept)) in *.
  split; [rewrite Hrk; apply rank_by_counts_none|]. split.
  - intros q Hq. rewrite Hrk in Hq.
    destruct (rank_by_counts_some _ _ _ Hq) as [Hval ->].
    apply mean_position_bounds.
    + pose proof (count_eq_pos _ _ Hval Hv). lia.
    + apply count_lt_eq_le.
  - intros rw' q q' Hin' Hq Hq'.
    destruct (frame_row_in kept rw' Hin') as [Hv' Hrk']. fold pool in Hv', Hrk'.
    rewrite Hrk in Hq. rewrite Hrk' in Hq'.
    destruct (rank_by_counts_some _ _ _ Hq) as [Hval ->].
    destruct (rank_by_counts_some _ _ _ Hq') as [Hval' ->].
    unfold midrank. split; intros Hcmp.
    + destruct (count_eqb_compat _ _ pool Hcmp) as [-> ->]. reflexivity.
    + apply mean_position_lt.
      * pose proof (count_eq_pos _ _ Hval Hv). lia.
      * pose proof (count_eq_pos _ _ Hval' Hv'). lia.
      * now apply count_lt_mono.
Qed.

(** X6.  There is one summary per distinct name, never more summaries than
    non-empty groups, and as many exactly when the non-empty groups carry
    pairwise different names: groups that share a name share one summary. *)
Theorem groups_sharing_a_name_share_a_summary :
  forall group_data group_names alpha show_details r,
    calculate_kruskal_wallis chi2_sf group_data group_names alpha show_details
    = Return r ->
    length (mean_ranks r) <= length (filter nonempty group_data)
    /\ (length (mean_ranks r) = length (filter nonempty group_data)
        <-> NoDup (map snd (kept_pairs group_data group_names))).
Proof.
  intros gd gn alpha sd r Hr.
  destruct (calculate_return chi2_sf gd gn alpha sd r Hr)
    as (_ & Hvg & hp & _ & ->).
  cbn [mean_ranks]. fold (valid_groups gd). rewrite Hvg.
  set (kept := kept_pairs gd gn).
  unfold groupby_mean. rewrite !length_map.
  rewrite <- (length_map snd kept).
  set (keys := group_keys _). set (names := map snd kept).
  assert (Hnd : NoDup keys) by (apply strictly_sorted_NoDup, group_keys_sorted).
  assert (Hin : forall nm, In nm keys <-> In nm names).
  { intros nm. unfold keys. rewrite group_keys_in.
    rewrite ranks_frame_pairs, map_map. simpl.
    apply labelled_names_in. apply kept_pairs_nonempty. }
  assert (Hle : length keys <= length names).
  { apply NoDup_incl_length; [exact Hnd|]. intros nm. apply Hin. }
  split; [exact Hle|]. split.
  - intros E. apply (NoDup_incl_NoDup Hnd); [lia|].
    intros nm. apply Hin.
  - intros Hn. apply Nat.le_antisymm; [exact Hle|].
    apply NoDup_incl_length; [exact Hn|]. intros nm. apply Hin.
Qed.

(** X7.  When the observations hold no NaN and the non-empty groups carry
    pairwise different names, the summary under the name of the [i]-th
    non-empty group is its mean rank [R_i / n_i], with [R_i] the rank sum
    that enters H. *)
Theorem mean_rank_is_rank_sum_over_size :
  forall group_data group_names alpha show_details r,
    calculate_kruskal_wallis chi2_sf group_data group_names alpha show_details
    = Return r ->
    existsb (existsb is_nan) group_data = false ->
    NoDup (map snd (kept_pairs group_data group_names)) ->
    forall i g nm,
      nth_error (kept_pairs group_data group_names) i = Some (g, nm) ->
      exists R m,
        nth_error (rank_sums (valid_groups group_data)) i = Some R
        /\ In (nm, Some m) (mean_ranks r)
        /\ (m == R / inject_Z (Z.of_nat (length g)))%Q.
Proof.
  intros gd gn alpha sd r Hr Hnan Hnd i g nm Hi.
  destruct (calculate_return chi2_sf gd gn alpha sd r Hr)
    as (_ & Hvg & hp & _ & ->).
  cbn [mean_ranks]. set (kept := kept_pairs gd gn) in *.
  assert (Hn : no_nan (concat (valid_groups gd))).
  { apply existsb_no_nan. now rewrite existsb_nan_valid. }
  assert (Hin : In (g, nm) kept) by (eapply nth_error_In; eassumption).
  assert (Hg : nonempty g = true) by (apply (kept_pairs_nonempty gd gn _ Hin)).
  exists (Qsum (map (midrank (concat (valid_groups gd))) g)).
  exists (Qred (Qsum (map (midrank (concat (valid_groups gd))) g)
                / inject_Z (Z.of_nat (length g)))).
  split; [|split].
  - rewrite (rank_sums_counts _ Hn), Hvg, map_map, nth_error_map. fold kept.
    now rewrite Hi.
  - assert (Hnm : In nm (map snd kept)) by (apply in_map_iff; now exists (g, nm)).
    pose proof (groupby_mean_frame kept nm (kept_pairs_nonempty gd gn) Hnm) as H.
    rewrite (filter_unique_name kept g nm Hnd Hin) in H.
    simpl in H. rewrite app_nil_r in H. rewrite <- Hvg in H.
    rewrite (map_ext_in (rank_by_counts (concat (valid_groups gd)))
               (fun v => Some (midrank (concat (valid_groups gd)) v))) in H.
    2:{ intros v Hv. unfold rank_by_counts, midrank.
        unfold no_nan in Hn. rewrite Forall_forall in Hn.
        assert (Hval : valued v).
        { apply Hn. rewrite Hvg. apply in_concat. exists g. split; [|exact Hv].
          apply in_map_iff. now exists (g, nm). }
        unfold valued in Hval. now rewrite Hval. }
    rewrite <- (map_map (midrank (concat (valid_groups gd))) Some) in H.
    unfold mean in H. rewrite somes_map_some in H.
    destruct g as [|v g']; [discriminate|].
    cbn [map] in H. cbn [map]. rewrite <- Hvg.
    replace (length (v :: g'))
      with (length (midrank (concat (valid_groups gd)) v
                    :: map (midrank (concat (valid_groups gd))) g'))
      by (simpl; now rewrite length_map).
    exact H.
  - apply Qred_correct.
Qed.

(** X8.  The frame behind the box and violin plots of [display_results] has
    the rows of the returned table: the same observations under the same
    names, in the same order. *)
Theorem plots_show_the_rows_of_the_table :
  forall group_data group_names alpha show_details r,
    calculate_kruskal_wallis chi2_sf group_data group_names alpha show_details
    = Return r ->
    df_viz group_data group_names
    = map (fun rw => (Value rw, Group rw)) (all_data r).
Proof.
  intros gd gn alpha sd r Hr.
  destruct (calculate_return chi2_sf gd gn alpha sd r Hr)
    as (_ & _ & hp & _ & ->).
  cbn [all_data]. now rewrite frame_columns, df_viz_labelled.
Qed.

End FrameProperties.

(* ================================================================== *)
(** * Further properties of [main] *)

Lemma read_tabs_names tabs : snd (read_tabs tabs) = map fst tabs.
Proof.
  induction tabs as [|[name text] tl IH]; simpl; [reflexivity|].
  destruct (read_tabs tl) as [gd gn]. simpl in *. now rewrite IH.
Qed.

Lemma tab_groups_length text :
  length (tab_groups text) = if blank_tab text then 2 else 1.
Proof. destruct text as [|[|v g]|]; reflexivity. Qed.

Lemma tab_groups_nonempty text :
  forallb nonempty (tab_groups text) = complete_tab text.
Proof. destruct text as [|[|v g]|]; reflexivity. Qed.

Lemma tab_groups_valid text :
  filter nonempty (tab_groups text)
  = if complete_tab text then [tab_values text] else [].
Proof. destruct text as [|[|v g]|]; reflexivity. Qed.

Lemma read_tabs_data_length tabs :
  length (fst (read_tabs tabs))
  = length tabs + length (filter (fun t => blank_tab (snd t)) tabs).
Proof.
  induction tabs as [|[name text] tl IH]; simpl; [reflexivity|].
  destruct (read_tabs tl) as [gd gn]. simpl in *.
  rewrite length_app, tab_groups_length, IH.
  destruct (blank_tab text); simpl; lia.
Qed.

Lemma read_tabs_all_nonempty tabs :
  forallb nonempty (fst (read_tabs tabs))
  = forallb (fun t => complete_tab (snd t)) tabs.
Proof.
  induction tabs as [|[name text] tl IH]; simpl; [reflexivity|].
  destruct (read_tabs tl) as [gd gn]. simpl in *.
  now rewrite forallb_app, tab_groups_nonempty, IH.
Qed.

Lemma read_tabs_valid tabs :
  filter nonempty (fst (read_tabs tabs))
  = map (fun t => tab_values (snd t)) (filter (fun t => complete_tab (snd t)) tabs).
Proof.
  induction tabs as [|[name text] tl IH]; simpl; [reflexivity|].
  destruct (read_tabs tl) as [gd gn]. simpl in *.
  rewrite filter_app, tab_groups_valid, IH.
  now destruct (complete_tab text).
Qed.

Lemma read_tabs_complete tabs :
  forallb (fun t => complete_tab (snd t)) tabs = true ->
  read_tabs tabs = (map (fun t => tab_values (snd t)) tabs, map fst tabs).
Proof.
  induction tabs as [|[name text] tl IH]; simpl; [reflexivity|].
  intros H. apply andb_true_iff in H. destruct H as [Hc Htl].
  rewrite (IH Htl). destruct text as [|[|v g]|]; try discriminate. reflexivity.
Qed.

Lemma kept_names_all gd : forall gn,
  forallb nonempty gd = true -> length gn = length gd ->
  map snd (kept_pairs gd gn) = gn.
Proof.
  unfold kept_pairs.
  induction gd as [|g gd IH]; intros [|n gn] Hall Hlen; simpl in *;
    try discriminate; [reflexivity|].
  apply andb_true_iff in Hall. destruct Hall as [Hg Hall].
  rewrite Hg. simpl. f_equal. apply IH; [exact Hall|lia].
Qed.

Section MainProperties.

Variable chi2_sf : Q -> Z -> Q.

(** X9.  The loop over the tabs collects one name per tab but one group per
    tab plus one more for every tab whose text holds separators and blanks
    only; the non-empty groups are, in order, the values of the tabs that
    gave at least one number. *)
Theorem tabs_names_and_groups :
  forall tabs,
    snd (read_tabs tabs) = map fst tabs
    /\ length (fst (read_tabs tabs))
       = length tabs + length (filter (fun t => blank_tab (snd t)) tabs)
    /\ filter nonempty (fst (read_tabs tabs))
       = map (fun t => tab_values (snd t))
             (filter (fun t => complete_tab (snd t)) tabs).
Proof.
  intros tabs. split; [apply read_tabs_names|].
  split; [apply read_tabs_data_length|apply read_tabs_valid].
Qed.

(** X10.  [main] refuses the input with one of its two messages exactly
    when some tab gave no number (no text, a refused token, or blanks only)
    or there are fewer than two tabs. *)
Theorem main_refuses_incomplete_tabs :
  forall tabs alpha show_details,
    (exists msg, main chi2_sf tabs alpha show_details = Raise (InvalidInput msg))
    <-> (forallb (fun t => complete_tab (snd t)) tabs = false
         \/ length tabs < 2).
Proof.
  intros tabs alpha sd. unfold main.
  pose proof (read_tabs_all_nonempty tabs) as Hall.
  pose proof (read_tabs_valid tabs) as Hvalid.
  destruct (forallb (fun t => complete_tab (snd t)) tabs) eqn:Hc.
  - rewrite (read_tabs_complete tabs Hc) in *. simpl in Hall, Hvalid.
    unfold run_analysis. rewrite Hvalid, Hall, length_map.
    rewrite (forallb_filter_id _ _ Hc).
    destruct (Nat.ltb_spec (length tabs) 2) as [Hk|Hk].
    + split; [intros _; now right|intros _; eexists; reflexivity].
    + simpl. split; [|intros [H|H]; [discriminate|lia]].
      intros [msg H]. exfalso.
      rewrite calculate_eval in H by now rewrite !length_map.
      destruct (kruskal chi2_sf _) as [hp|e] eqn:Hkr; [discriminate|].
      simpl in H. injection H as ->. apply kruskal_raise in Hkr.
      destruct Hkr as [[Hlt _]|(_ & _ & _ & He)]; [|discriminate].
      unfold valid_groups in Hlt. rewrite Hvalid, length_map in Hlt.
      rewrite (forallb_filter_id _ _ Hc) in Hlt. lia.
  - split; [intros _; now left|]. intros _.
    destruct (read_tabs tabs) as [gd gn]. simpl in Hall.
    unfold run_analysis. rewrite Hall. simpl.
    destruct (Nat.ltb (length (filter nonempty gd)) 2); eexists; reflexivity.
Qed.

(** X11.  When [main] returns a result, every tab gave at least one number
    and the result is the one [calculate_kruskal_wallis] computes on the
    values and the names of the tabs, tab by tab. *)
Theorem main_computes_on_the_tabs :
  forall tabs alpha show_details r,
    main chi2_sf tabs alpha show_details = Return r ->
    forallb (fun t => complete_tab (snd t)) tabs = true
    /\ 2 <= length tabs
    /\ calculate_kruskal_wallis chi2_sf
         (map (fun t => tab_values (snd t)) tabs) (map fst tabs)
         alpha show_details
       = Return r.
Proof.
  intros tabs alpha sd r. unfold main.
  pose proof (read_tabs_all_nonempty tabs) as Hall.
  pose proof (read_tabs_valid tabs) as Hvalid.
  destruct (forallb (fun t => complete_tab (snd t)) tabs) eqn:Hc.
  - rewrite (read_tabs_complete tabs Hc) in *. simpl in Hall, Hvalid.
    unfold run_analysis. rewrite Hvalid, Hall, length_map.
    rewrite (forallb_filter_id _ _ Hc).
    destruct (Nat.ltb_spec (length tabs) 2) as [Hk|Hk]; [discriminate|].
    simpl. intros H. now repeat split.
  - destruct (read_tabs tabs) as [gd gn]. simpl in Hall.
    unfold run_analysis. rewrite Hall. simpl.
    destruct (Nat.ltb (length (filter nonempty gd)) 2); discriminate.
Qed.

(** X12.  The name lookup of [calculate_kruskal_wallis] is safe behind the
    guard of [main]: the loop over the tabs can collect more groups than
    names, but whenever every collected group is non-empty (the test of
    main.py:144) it has collected exactly one group per name, the filter of
    main.py:166 keeps every group, and [group_names[i]] at main.py:167 finds
    a name for each of them, so that the names handed on are the names of
    the tabs in their order. *)
Theorem every_group_of_main_has_its_name :
  forall tabs,
    forallb nonempty (fst (read_tabs tabs)) = true ->
    length (snd (read_tabs tabs)) = length (fst (read_tabs tabs))
    /\ valid_groups (fst (read_tabs tabs)) = fst (read_tabs tabs)
    /\ valid_names (fst (read_tabs tabs)) (snd (read_tabs tabs))
       = Return (map fst tabs).
Proof.
  intros tabs Hall.
  pose proof (read_tabs_aligned tabs Hall) as Hlen.
  split; [exact Hlen|]. split.
  - unfold valid_groups. now apply forallb_filter_id.
  - rewrite (valid_names_pairs _ _ Hlen), (kept_names_all _ _ Hall Hlen).
    f_equal. apply read_tabs_names.
Qed.

End MainProperties.

(* ================================================================== *)
(** * The text of a tab *)

Lemma split_comma_cons s : exists w ws, split_comma s = w :: ws.
Proof.
  induction s as [|c tl (w & ws & IH)]; simpl; [now eexists; eexists|].
  destruct (Ascii.eqb c comma); [now eexists; eexists|].
  rewrite IH. now eexists; eexists.
Qed.

Lemma split_comma_app a b :
  split_comma (a ++ String comma b) = split_comma a ++ split_comma b.
Proof.
  induction a as [|c tl IH]; simpl; [reflexivity|].
  destruct (Ascii.eqb c comma); [now rewrite IH|].
  rewrite IH. destruct (split_comma_cons tl) as (w & ws & ->). reflexivity.
Qed.

Lemma replace_newline_app a b :
  replace_newline (a ++ b) = (replace_newline a ++ replace_newline b)%string.
Proof. induction a as [|c tl IH]; simpl; [reflexivity|]. now rewrite IH. Qed.

Lemma tokens_comma a b : tokens (a ++ String comma b) = tokens a ++ tokens b.
Proof.
  unfold tokens. rewrite replace_newline_app. simpl. apply split_comma_app.
Qed.

Lemma tokens_newline a b : tokens (a ++ String newline b) = tokens a ++ tokens b.
Proof.
  unfold tokens. rewrite replace_newline_app. simpl. apply split_comma_app.
Qed.

Lemma tokens_plain c s :
  Ascii.eqb c comma = false -> Ascii.eqb c newline = false ->
  tokens (String c s)
  = match tokens s with
    | w :: ws => String c w :: ws
    | [] => [String c EmptyString]
    end.
Proof.
  intros H1 H2. unfold tokens. simpl. now rewrite H2, H1.
Qed.

Section TextProperties.

Variable strip : string -> string.
Variable float : string -> option pyfloat.
Variable str : pyfloat -> string.

Lemma parse_tokens_app toks toks' :
  parse_tokens strip float (toks ++ toks')
  = match parse_tokens strip float toks, parse_tokens strip float toks' with
    | Some x, Some y => Some (x ++ y)
    | _, _ => None
    end.
Proof.
  induction toks as [|t tl IH]; simpl.
  - now destruct (parse_tokens strip float toks').
  - destruct (String.eqb (strip t) EmptyString); [exact IH|].
    destruct (float (strip t)); [|reflexivity].
    rewrite IH.
    destruct (parse_tokens strip float tl); [|reflexivity].
    now destruct (parse_tokens strip float toks').
Qed.

(** X13.  In a text area a comma and a line break separate the values
    alike.  The values of two texts joined by either are the values of the
    first followed by those of the second, and the joined text is refused
    as soon as one of the two holds a token [float] refuses. *)
Theorem values_of_joined_texts :
  forall a b : string,
    let values s := parse_tokens strip float (tokens s) in
    let both :=
      match values a, values b with
      | Some x, Some y => Some (x ++ y)
      | _, _ => None
      end in
    values (a ++ String comma b)%string = both
    /\ values (a ++ String newline b)%string = both.
Proof.
  intros a b values both. unfold values, both.
  rewrite tokens_comma, tokens_newline. split; apply parse_tokens_app.
Qed.

Lemma parse_tokens_blank toks :
  (forall t, In t toks -> strip t = EmptyString) ->
  parse_tokens strip float toks = Some [].
Proof.
  induction toks as [|t tl IH]; simpl; intros H; [reflexivity|].
  rewrite (H t (or_introl eq_refl)). simpl. apply IH. intros; apply H; now right.
Qed.

(** X14.  A text area that is not empty but holds separators and blanks
    only makes its tab append two empty groups to [group_data], for one
    name: [min(group)] fails after the first [append] and the handler
    appends again. *)
Theorem blank_text_appends_two_groups :
  forall group_input : string,
    group_input <> EmptyString ->
    (forall t, In t (tokens group_input) -> strip t = EmptyString) ->
    parse_group strip float group_input = Numbers []
    /\ tab_groups (parse_group strip float group_input) = [[]; []].
Proof.
  intros text Hne Hblank. unfold parse_group.
  apply String.eqb_neq in Hne. rewrite Hne.
  rewrite (parse_tokens_blank _ Hblank). now split.
Qed.

Lemma tokens_space_single s :
  tokens s = [s] -> tokens (String " " s) = [String " " s].
Proof.
  intros H. rewrite tokens_plain by reflexivity. now rewrite H.
Qed.

Lemma parse_tokens_reads_back v :
  reads_back strip float str v ->
  parse_tokens strip float [str v] = Some [v]
  /\ parse_tokens strip float [String " " (str v)] = Some [v].
Proof.
  intros (_ & _ & Hs & Hf & Hsp). simpl. rewrite Hsp.
  apply String.eqb_neq in Hs. now rewrite Hs, Hf.
Qed.

Lemma concat_cons_cons sep x y (l : list string) :
  String.concat sep (x :: y :: l) = (x ++ sep ++ String.concat sep (y :: l))%string.
Proof. reflexivity. Qed.

Lemma string_app_assoc (a b c : string) : ((a ++ b) ++ c = a ++ (b ++ c))%string.
Proof. induction a as [|x a IH]; simpl; [reflexivity|]. now rewrite IH. Qed.

Lemma parse_joined data : forall v,
  Forall (reads_back strip float str) (v :: data) ->
  parse_tokens strip float (tokens (String.concat ", " (map str (v :: data))))
  = Some (v :: data)
  /\ parse_tokens strip float
       (tokens (String " " (String.concat ", " (map str (v :: data)))))
     = Some (v :: data).
Proof.
  induction data as [|w data IH]; intros v Hall.
  - inversion Hall as [|? ? Hv _]; subst. simpl.
    destruct Hv as (Hne & Htok & Hrest).
    rewrite (tokens_space_single _ Htok), Htok.
    apply parse_tokens_reads_back. now repeat split.
  - inversion Hall as [|? ? Hv Hrest]; subst.
    destruct (IH w Hrest) as [_ IHsp].
    cbn [map]. rewrite concat_cons_cons. cbn [map] in IHsp.
    change (", " ++ ?s)%string with (String comma (String " " s)).
    destruct Hv as (Hne & Htok & Hv').
    assert (Hpv := parse_tokens_reads_back v (conj Hne (conj Htok Hv'))).
    split.
    + rewrite tokens_comma, parse_tokens_app, Htok, (proj1 Hpv), IHsp.
      reflexivity.
    + change (String " " (str v ++ String comma ?s))%string
        with ((String " " (str v)) ++ String comma s)%string.
      rewrite tokens_comma, parse_tokens_app, (tokens_space_single _ Htok).
      rewrite (proj2 Hpv), IHsp. reflexivity.
Qed.

(** X15.  Writing the values of a group with [", ".join(map(str, data))], as
    [return_example_data] does, and reading the text back as [main] reads a
    text area gives the group again, provided [str] of each value holds no
    separator and [float] reads it back; no value gives no text. *)
Theorem joined_values_read_back :
  forall data : list pyfloat,
    Forall (reads_back strip float str) data ->
    parse_group strip float (String.concat ", " (map str data))
    = match data with
      | [] => NoText
      | _ :: _ => Numbers data
      end.
Proof.
  intros [|v data] Hall; [reflexivity|].
  unfold parse_group. rewrite (proj1 (parse_joined data v Hall)).
  destruct (String.eqb _ EmptyString) eqn:E; [|reflexivity].
  exfalso. apply String.eqb_eq in E.
  inversion Hall as [|? ? (Hne & _) _]; subst.
  destruct data as [|w data]; simpl in E.
  - now apply Hne.
  - destruct (str v); [now apply Hne|discriminate].
Qed.

(** X16.  After [return_example_data] the session state holds, for each of
    the three example groups, its name under [name_i] and its joined values
    under [group_i]; every other key keeps what it held; loading a second
    time changes nothing. *)
Theorem example_data_is_loaded :
  forall state : session,
    let loaded := return_example_data str state in
    (forall i data name,
        nth_error example_data i = Some data ->
        nth_error example_names i = Some name ->
        loaded (name_key i) = Some name
        /\ loaded (group_key i) = Some (String.concat ", " (map str data)))
    /\ (forall k,
          (forall i, i < 3 -> k <> name_key i /\ k <> group_key i) ->
          loaded k = state k)
    /\ (forall k, return_example_data str loaded k = loaded k).
Proof.
  intros state loaded. unfold loaded. split; [|split].
  - intros i data name Hd Hn.
    destruct i as [|[|[|i]]]; simpl in Hd, Hn;
      try (destruct i; discriminate);
      injection Hd as <-; injection Hn as <-; split; reflexivity.
  - intros k Hk.
    destruct (Hk 0 ltac:(lia)) as [H0 H0'].
    destruct (Hk 1 ltac:(lia)) as [H1 H1'].
    destruct (Hk 2 ltac:(lia)) as [H2 H2'].
    apply String.eqb_neq in H0, H0', H1, H1', H2, H2'.
    unfold return_example_data, enumerate.
    cbn [fold_left enumerate_from combine example_data example_names fst snd].
    unfold set_item. now rewrite H0, H0', H1, H1', H2, H2'.
  - intros k.
    unfold return_example_data, enumerate.
    cbn [fold_left enumerate_from combine example_data example_names fst snd].
    unfold set_item.
    destruct (String.eqb k (group_key 2)); [reflexivity|].
    destruct (String.eqb k (name_key 2)); [reflexivity|].
    destruct (String.eqb k (group_key 1)); [reflexivity|].
    destruct (String.eqb k (name_key 1)); [reflexivity|].
    destruct (String.eqb k (group_key 0)); [reflexivity|].
    destruct (String.eqb k (name_key 0)); reflexivity.
Qed.

End TextProperties.


(* ================================================================== *)
(** * A change of scale of the observations *)

Lemma flt_eqb_by_ltb a b :
  flt_eqb a b
  = negb (is_nan a) && negb (is_nan b) && negb (flt_ltb a b) && negb (flt_ltb b a).
Proof.
  destruct a as [|x| |], b as [|y| |]; simpl; try reflexivity.
  destruct (Qeq_bool x y) eqn:E, (Qle_bool y x) eqn:E1, (Qle_bool x y) eqn:E2;
    simpl; try reflexivity; exfalso; flt_hyps; lra.
Qed.

Lemma combine_map_snd {A B C : Type} (f : B -> C) (l : list A) (l' : list B) :
  combine l (map f l') = map (fun p => (fst p, f (snd p))) (combine l l').
Proof.
  revert l'. induction l as [|a l IH]; intros [|b l']; simpl; try reflexivity.
  now rewrite IH.
Qed.

Section Monotone.

Variable f : pyfloat -> pyfloat.

Hypothesis f_lt : forall a b, flt_ltb (f a) (f b) = flt_ltb a b.

Hypothesis f_nan : forall a, is_nan (f a) = is_nan a.

Lemma f_eq a b : flt_eqb (f a) (f b) = flt_eqb a b.
Proof. now rewrite !flt_eqb_by_ltb, !f_lt, !f_nan. Qed.

Lemma f_le a b : flt_leb (f a) (f b) = flt_leb a b.
Proof. unfold flt_leb. now rewrite f_lt, f_eq. Qed.

Lemma pool_rows_map values :
  pool_rows (map f values) = map (fun o => (fst o, f (snd o))) (pool_rows values).
Proof. unfold pool_rows. now rewrite length_map, combine_map_snd. Qed.

Lemma filter_not_nan_map (l : list observation) :
  filter not_nan_obs (map (fun o => (fst o, f (snd o))) l)
  = map (fun o => (fst o, f (snd o))) (filter not_nan_obs l).
Proof.
  induction l as [|o l IH]; [reflexivity|]. cbn [map filter]. rewrite IH.
  assert (E : not_nan_obs (fst o, f (snd o)) = not_nan_obs o).
  { unfold not_nan_obs. cbn [snd]. now rewrite f_nan. }
  rewrite E. destruct (not_nan_obs o); reflexivity.
Qed.

Lemma insert_obs_map o (s : list observation) :
  insert_obs (fst o, f (snd o)) (map (fun o => (fst o, f (snd o))) s)
  = map (fun o => (fst o, f (snd o))) (insert_obs o s).
Proof.
  induction s as [|x s IH]; simpl; [reflexivity|].
  rewrite f_le. destruct (flt_leb (snd o) (snd x)); simpl; [reflexivity|].
  now rewrite IH.
Qed.

Lemma sort_obs_map (l : list observation) :
  sort_obs (map (fun o => (fst o, f (snd o))) l)
  = map (fun o => (fst o, f (snd o))) (sort_obs l).
Proof.
  induction l as [|o l IH]; simpl; [reflexivity|].
  now rewrite IH, insert_obs_map.
Qed.

Lemma tie_groups_map (s : list observation) :
  tie_groups (map (fun o => (fst o, f (snd o))) s)
  = map (map (fun o => (fst o, f (snd o)))) (tie_groups s).
Proof.
  induction s as [|o s IH]; simpl; [reflexivity|].
  rewrite IH. destruct (tie_groups s) as [|[|x g] gs]; simpl; try reflexivity.
  rewrite f_eq. destruct (flt_eqb (snd o) (snd x)); reflexivity.
Qed.

Lemma assign_ranks_map (gs : list (list observation)) : forall p,
  assign_ranks p (map (map (fun o => (fst o, f (snd o)))) gs)
  = map (fun oq : observation * Q => ((fst (fst oq), f (snd (fst oq))), snd oq))
        (assign_ranks p gs).
Proof.
  induction gs as [|g gs IH]; intros p; simpl; [reflexivity|].
  rewrite map_app, !map_map, length_map, IH. reflexivity.
Qed.

Lemma lookup_row_map i (tbl : list (observation * Q)) :
  lookup_row i
    (map (fun oq : observation * Q => ((fst (fst oq), f (snd (fst oq))), snd oq)) tbl)
  = lookup_row i tbl.
Proof.
  induction tbl as [|[[j v] q] tbl IH]; simpl; [reflexivity|].
  now rewrite IH.
Qed.

Lemma rank_map values : rank (map f values) = rank values.
Proof.
  unfold rank, ranked_table. cbv zeta.
  rewrite pool_rows_map, filter_not_nan_map, sort_obs_map, tie_groups_map,
    assign_ranks_map, length_map.
  apply map_ext. intros i. apply lookup_row_map.
Qed.

Lemma tie_terms_map (gs : list (list observation)) :
  tie_terms (map (map (fun o => (fst o, f (snd o)))) gs) = tie_terms gs.
Proof.
  unfold tie_terms. induction gs as [|g gs IH]; [reflexivity|].
  cbn [map filter]. rewrite length_map.
  destruct (Nat.ltb 1 (length g)); cbn [map]; rewrite ?length_map, IH; reflexivity.
Qed.

Lemma tiecorrect_map values : tiecorrect (map f values) = tiecorrect values.
Proof.
  unfold tiecorrect. cbv zeta.
  now rewrite pool_rows_map, sort_obs_map, tie_groups_map, tie_terms_map, length_map.
Qed.

Lemma sizes_map (samples : list (list pyfloat)) :
  map (@length pyfloat) (map (map f) samples) = map (@length pyfloat) samples.
Proof. rewrite map_map. apply map_ext. intros g. apply length_map. Qed.

Lemma h_raw_map samples : h_raw (map (map f) samples) = h_raw samples.
Proof.
  unfold h_raw, ssbn, rank_sums, rankdata. cbv zeta.
  now rewrite sizes_map, <- concat_map, rank_map, length_map.
Qed.

Lemma existsb_empty_map (samples : list (list pyfloat)) :
  existsb (fun s => negb (nonempty s)) (map (map f) samples)
  = existsb (fun s => negb (nonempty s)) samples.
Proof.
  induction samples as [|g l IH]; simpl; [reflexivity|].
  rewrite IH. now destruct g.
Qed.

Lemma existsb_nan_map (samples : list (list pyfloat)) :
  existsb (existsb is_nan) (map (map f) samples) = existsb (existsb is_nan) samples.
Proof.
  induction samples as [|g l IH]; simpl; [reflexivity|].
  rewrite IH. f_equal. induction g as [|v g IHg]; simpl; [reflexivity|].
  now rewrite f_nan, IHg.
Qed.

Lemma kruskal_map chi2_sf samples :
  kruskal chi2_sf (map (map f) samples) = kruskal chi2_sf samples.
Proof.
  unfold kruskal.
  now rewrite length_map, existsb_empty_map, existsb_nan_map, <- concat_map,
    tiecorrect_map, h_raw_map.
Qed.

Lemma valid_groups_map gd :
  valid_groups (map (map f) gd) = map (map f) (valid_groups gd).
Proof.
  unfold valid_groups. induction gd as [|g gd IH]; simpl; [reflexivity|].
  rewrite IH. now destruct g.
Qed.

Lemma valid_names_map gd gn :
  valid_names (map (map f) gd) gn = valid_names gd gn.
Proof.
  unfold valid_names, enumerate. generalize 0.
  induction gd as [|g gd IH]; intros i; simpl; [reflexivity|].
  rewrite IH. now destruct g.
Qed.

Lemma group_indices_map vg : group_indices (map (map f) vg) = group_indices vg.
Proof.
  unfold group_indices, enumerate. generalize 0.
  induction vg as [|g vg IH]; intros i; simpl; [reflexivity|].
  now rewrite IH, length_map.
Qed.

Lemma ranks_frame_map vg vn :
  ranks_frame (map (map f) vg) vn
  = map (fun rw => mkRow (f (Value rw)) (Group rw) (Rank rw)) (ranks_frame vg vn).
Proof.
  unfold ranks_frame. cbv zeta.
  rewrite !pooled_data_concat, group_indices_map, <- concat_map, rank_map.
  generalize (rank (concat vg)).
  generalize (map (fun i => nth i vn EmptyString) (group_indices vg)).
  generalize (concat vg). clear vg vn.
  induction l as [|v l IH]; intros [|nm labels] [|q ranks]; simpl; try reflexivity.
  now rewrite IH.
Qed.

Lemma groupby_mean_map rows :
  groupby_mean (map (fun rw => mkRow (f (Value rw)) (Group rw) (Rank rw)) rows)
  = groupby_mean rows.
Proof.
  unfold groupby_mean. rewrite map_map. cbn [Group].
  apply map_ext. intros k. do 2 f_equal.
  induction rows as [|rw rows IH]; simpl; [reflexivity|].
  destruct (String.eqb (Group rw) k); simpl; now rewrite IH.
Qed.

(** X19.  The test reads the order of the observations only.  When every
    observation is sent through a map that keeps [<] between any two floats
    and keeps NaN apart (a change of unit, a logarithm), the outcome is the
    same: the same failure, or a result with the same H, p-value, degrees of
    freedom, verdict, summaries and ranks, whose rows carry the new
    values. *)
Theorem change_of_scale_changes_nothing :
  forall chi2_sf group_data group_names alpha show_details,
    calculate_kruskal_wallis chi2_sf (map (map f) group_data) group_names
      alpha show_details
    = (r <- calculate_kruskal_wallis chi2_sf group_data group_names
              alpha show_details ;;
       Return (mkResults (h_stat r) (p_val r) (df r) (significant r) (mean_ranks r)
                 (map (fun rw => mkRow (f (Value rw)) (Group rw) (Rank rw))
                      (all_data r)))).
Proof.
  intros chi2_sf gd gn alpha sd. unfold calculate_kruskal_wallis. cbv zeta.
  rewrite valid_names_map, valid_groups_map, kruskal_map, length_map.
  destruct (valid_names gd gn) as [vn|e]; [|reflexivity]. cbn [bind].
  destruct (kruskal chi2_sf (valid_groups gd)) as [hp|e]; [|reflexivity].
  cbn [bind h_stat p_val df significant mean_ranks all_data].
  now rewrite ranks_frame_map, groupby_mean_map.
Qed.

End Monotone.

Lemma fahrenheit_lt a b : flt_ltb (fahrenheit a) (fahrenheit b) = flt_ltb a b.
Proof.
  destruct a as [|x| |], b as [|y| |]; try reflexivity.
  unfold fahrenheit, flt_ltb. f_equal.
  set (x' := Qred ((9 # 5) * x + 32)). set (y' := Qred ((9 # 5) * y + 32)).
  assert (Hx : (x' == (9 # 5) * x + 32)%Q) by apply Qred_correct.
  assert (Hy : (y' == (9 # 5) * y + 32)%Q) by apply Qred_correct.
  destruct (Qle_bool y x) eqn:E, (Qle_bool y' x') eqn:E'; try reflexivity; exfalso.
  - apply Qle_bool_iff in E.
    assert (H : (y' <= x')%Q) by lra. apply Qle_bool_iff in H. congruence.
  - apply Qle_bool_iff in E'.
    assert (H : (y <= x)%Q) by lra. apply Qle_bool_iff in H. congruence.
Qed.

Lemma fahrenheit_nan a : is_nan (fahrenheit a) = is_nan a.
Proof. now destruct a. Qed.

(* ================================================================== *)
(** * The order of the observations within a group *)

Lemma nonempty_perm {A : Type} (g g' : list A) :
  Permutation g g' -> nonempty g = nonempty g'.
Proof.
  intros H. destruct g as [|a g], g' as [|b g']; try reflexivity.
  - apply Permutation_nil in H. discriminate.
  - symmetry in H. apply Permutation_nil in H. discriminate.
Qed.

Lemma concat_within (s s' : list (list pyfloat)) :
  Forall2 (@Permutation pyfloat) s s' -> Permutation (concat s) (concat s').
Proof.
  induction 1; simpl; [constructor|]. now apply Permutation_app.
Qed.

Lemma valid_groups_within gd gd' :
  Forall2 (@Permutation pyfloat) gd gd' ->
  Forall2 (@Permutation pyfloat) (valid_groups gd) (valid_groups gd').
Proof.
  unfold valid_groups. induction 1 as [|g g' gd gd' Hg _ IH]; simpl; [constructor|].
  rewrite <- (nonempty_perm g g' Hg).
  destruct (nonempty g); [constructor|]; assumption.
Qed.

Lemma valid_names_within gd gd' gn :
  Forall2 (@Permutation pyfloat) gd gd' -> valid_names gd gn = valid_names gd' gn.
Proof.
  intros H. unfold valid_names, enumerate. generalize 0.
  induction H as [|g g' gd gd' Hg _ IH]; intros i; simpl; [reflexivity|].
  now rewrite <- (nonempty_perm g g' Hg), IH.
Qed.

Lemma existsb_within (f : list pyfloat -> bool) s s' :
  (forall g g', Permutation g g' -> f g = f g') ->
  Forall2 (@Permutation pyfloat) s s' -> existsb f s = existsb f s'.
Proof.
  intros Hf. induction 1 as [|g g' s s' Hg _ IH]; simpl; [reflexivity|].
  now rewrite (Hf g g' Hg), IH.
Qed.

Lemma sample_terms_within pool pool' s s' :
  Permutation pool pool' -> Forall2 (@Permutation pyfloat) s s' ->
  (Qsum (map (sample_term pool) s) == Qsum (map (sample_term pool') s'))%Q.
Proof.
  intros Hp. induction 1 as [|g g' s s' Hg _ IH]; simpl; [reflexivity|].
  rewrite IH. apply Qplus_comp; [|reflexivity].
  unfold sample_term.
  rewrite (map_ext (midrank pool) (midrank pool'))
    by (intros v; now apply midrank_perm).
  rewrite (Qsum_perm _ _ (Permutation_map (midrank pool') Hg)).
  now rewrite (Permutation_length Hg).
Qed.

Lemma h_raw_within s s' :
  no_nan (concat s) -> Forall2 (@Permutation pyfloat) s s' ->
  (h_raw s == h_raw s')%Q.
Proof.
  intros Hn H. pose proof (concat_within s s' H) as Hc.
  unfold h_raw. cbv zeta.
  rewrite (ssbn_counts s Hn), (ssbn_counts s' (no_nan_perm _ _ Hc Hn)).
  rewrite (sample_terms_within _ _ s s' Hc H), (Permutation_length Hc).
  reflexivity.
Qed.

Lemma kruskal_within chi2_sf s s' :
  Forall2 (@Permutation pyfloat) s s' -> kruskal chi2_sf s = kruskal chi2_sf s'.
Proof.
  intros H. pose proof (concat_within s s' H) as Hc.
  unfold kruskal. rewrite (Forall2_length H).
  destruct (Nat.ltb (length s') 2); [reflexivity|].
  rewrite (existsb_within (fun g => negb (nonempty g)) s s')
    by (try exact H; intros g g' Hg; now rewrite (nonempty_perm g g' Hg)).
  destruct (existsb _ s'); [reflexivity|].
  rewrite (existsb_within (existsb is_nan) s s')
    by (try exact H; intros g g' Hg; now apply existsb_perm).
  destruct (existsb (existsb is_nan) s') eqn:Hnan; [reflexivity|].
  assert (Hn : no_nan (concat s)).
  { apply (no_nan_perm (concat s')); [now symmetry|now apply existsb_no_nan]. }
  rewrite (tiecorrect_perm _ _ Hn Hc).
  destruct (Qeq_bool (tiecorrect (concat s')) 0); [reflexivity|].
  assert (Hh : Qred (h_raw s / tiecorrect (concat s'))
               = Qred (h_raw s' / tiecorrect (concat s'))).
  { apply Qred_complete. now rewrite (h_raw_within _ _ Hn H). }
  cbv zeta. now rewrite Hh.
Qed.

Lemma labelled_within gd gd' : forall gn,
  Forall2 (@Permutation pyfloat) gd gd' ->
  Permutation (labelled (kept_pairs gd gn)) (labelled (kept_pairs gd' gn)).
Proof.
  intros gn H. revert gn. unfold kept_pairs, labelled.
  induction H as [|g g' gd gd' Hg _ IH]; intros [|n gn]; simpl; try constructor.
  rewrite <- (nonempty_perm g g' Hg).
  destruct (nonempty g); simpl; [|apply IH].
  apply Permutation_app; [now apply Permutation_map|apply IH].
Qed.

(** X20.  The order in which the observations of a group are entered is
    irrelevant: with every group reordered in any way, the outcome is the
    same failure, or the same H, p-value, degrees of freedom, verdict and
    group summaries. *)
Theorem order_within_a_group_is_irrelevant :
  forall chi2_sf group_data group_data' group_names alpha show_details,
    Forall2 (@Permutation pyfloat) group_data group_data' ->
    statistics
      (calculate_kruskal_wallis chi2_sf group_data group_names alpha show_details)
    = statistics
        (calculate_kruskal_wallis chi2_sf group_data' group_names alpha show_details).
Proof.
  intros chi2_sf gd gd' gn alpha sd H.
  unfold calculate_kruskal_wallis. cbv zeta.
  pose proof (valid_names_within gd gd' gn H) as Hvn'.
  destruct (valid_names gd gn) as [vn|e] eqn:Hvn; rewrite <- Hvn'; [|reflexivity].
  cbn [bind].
  pose proof (valid_groups_within gd gd' H) as Hvg.
  rewrite (kruskal_within chi2_sf _ _ Hvg).
  destruct (kruskal chi2_sf (valid_groups gd')) as [hp|e]; [|reflexivity].
  unfold statistics, bind. cbn [h_stat p_val df significant mean_ranks].
  rewrite (Forall2_length Hvg). do 2 f_equal.
  apply groupby_mean_perm.
  destruct (valid_names_kept gd gn vn Hvn) as [E1 E2].
  symmetry in Hvn'. destruct (valid_names_kept gd' gn vn Hvn') as [E1' E2'].
  replace (ranks_frame (valid_groups gd) vn)
    with (ranks_frame (map fst (kept_pairs gd gn)) (map snd (kept_pairs gd gn)))
    by (now rewrite <- E1, <- E2).
  replace (ranks_frame (valid_groups gd') vn)
    with (ranks_frame (map fst (kept_pairs gd' gn)) (map snd (kept_pairs gd' gn)))
    by (now rewrite <- E1', <- E2').
  rewrite !ranks_frame_pairs.
  rewrite (map_ext
             (fun x => mkRow (fst x) (snd x)
                         (rank_by_counts (concat (map fst (kept_pairs gd gn))) (fst x)))
             (fun x => mkRow (fst x) (snd x)
                         (rank_by_counts (concat (map fst (kept_pairs gd' gn))) (fst x)))).
  - apply Permutation_map. now apply labelled_within.
  - intros x. f_equal. apply rank_by_counts_perm.
    rewrite <- E2, <- E2'. now apply concat_within.
Qed.

(* ================================================================== *)
(** * Concrete runs of the further properties *)

Lemma ranks_respect_values_witness :
  exists r rw rw' q q',
    calculate_kruskal_wallis sf_markov ties_example default_names (5 # 100) false
    = Return r
    /\ nth_error (all_data r) 0 = Some rw
    /\ nth_error (all_data r) 1 = Some rw'
    /\ Rank rw = Some q /\ Rank rw' = Some q'
    /\ (q < q')%Q.
Proof.
  eexists.
  exists (mkRow (Finite 1) "Group 1" (Some 1%Q)).
  exists (mkRow (Finite 2) "Group 1" (Some 3%Q)).
  exists 1%Q. exists 3%Q.
  split; [reflexivity|]. split; [reflexivity|]. split; [reflexivity|].
  split; [reflexivity|]. split; [reflexivity|].
  refine (proj2 (proj2 (proj2 (ranks_respect_values sf_markov ties_example
            default_names (5 # 100)%Q false _ eq_refl
            (mkRow (Finite 1) "Group 1" (Some 1%Q)) _))
            (mkRow (Finite 2) "Group 1" (Some 3%Q)) 1%Q 3%Q _ eq_refl eq_refl)
            eq_refl).
  - simpl. left. reflexivity.
  - simpl. right. left. reflexivity.
Defined.

Lemma groups_sharing_a_name_share_a_summary_witness :
  exists r,
    calculate_kruskal_wallis sf_markov two_groups ["a"; "a"]%string (5 # 100) false
    = Return r
    /\ length (mean_ranks r) <= 2.
Proof.
  eexists. split; [reflexivity|].
  exact (proj1 (groups_sharing_a_name_share_a_summary sf_markov two_groups
                  ["a"; "a"]%string (5 # 100)%Q false _ eq_refl)).
Defined.

Lemma mean_rank_is_rank_sum_over_size_witness :
  exists R m,
    nth_error (rank_sums (valid_groups two_groups)) 0 = Some R
    /\ In ("a"%string, Some m)
          [("a"%string, Some (3 # 2)%Q); ("b"%string, Some (7 # 2)%Q)]
    /\ (m == R / inject_Z (Z.of_nat (length (fin [1; 2]%Q))))%Q.
Proof.
  assert (Hd : NoDup (map snd (kept_pairs two_groups two_names))).
  { simpl. constructor; [intros [H|[]]; discriminate|].
    constructor; [intros []|constructor]. }
  exact (mean_rank_is_rank_sum_over_size sf_markov two_groups two_names
           (5 # 100)%Q false _ eq_refl eq_refl Hd 0 (fin [1; 2]%Q) "a"%string eq_refl).
Defined.

Lemma plots_show_the_rows_of_the_table_witness :
  exists r,
    calculate_kruskal_wallis sf_markov gap_example default_names (5 # 100) false
    = Return r
    /\ df_viz gap_example default_names
       = map (fun rw => (Value rw, Group rw)) (all_data r).
Proof.
  eexists. split; [reflexivity|].
  exact (plots_show_the_rows_of_the_table sf_markov gap_example default_names
           (5 # 100)%Q false _ eq_refl).
Defined.

Lemma main_computes_on_the_tabs_witness :
  exists r,
    main sf_markov
      [("a"%string, Numbers (fin [1; 2]%Q)); ("b"%string, Numbers (fin [3; 4]%Q))]
      (5 # 100) false = Return r
    /\ calculate_kruskal_wallis sf_markov two_groups two_names (5 # 100) false
       = Return r.
Proof.
  eexists. split; [reflexivity|].
  exact (proj2 (proj2 (main_computes_on_the_tabs sf_markov
           [("a"%string, Numbers (fin [1; 2]%Q)); ("b"%string, Numbers (fin [3; 4]%Q))]
           (5 # 100)%Q false _ eq_refl))).
Defined.

Lemma blank_text_appends_two_groups_witness :
  tab_groups (parse_group strip_spaces float_digits " , ") = [[]; []].
Proof.
  refine (proj2 (blank_text_appends_two_groups strip_spaces float_digits " , " _ _)).
  - discriminate.
  - simpl. intros t [<-|[<-|[]]]; reflexivity.
Defined.

Lemma joined_values_read_back_witness :
  parse_group strip_spaces float_digits "1, 25, 3" = Numbers (fin [1; 25; 3]%Q).
Proof.
  refine (joined_values_read_back strip_spaces float_digits str_digits
            (fin [1; 25; 3]%Q) _).
  repeat (constructor; [unfold reads_back; simpl;
                        repeat split; try reflexivity; discriminate|]).
  constructor.
Defined.

Lemma change_of_scale_changes_nothing_witness :
  statistics (calculate_kruskal_wallis sf_markov (map (map fahrenheit) ties_example)
                default_names (5 # 100) false)
  = statistics (calculate_kruskal_wallis sf_markov ties_example default_names
                  (5 # 100) false).
Proof.
  rewrite (change_of_scale_changes_nothing fahrenheit fahrenheit_lt fahrenheit_nan
             sf_markov ties_example default_names (5 # 100)%Q false).
  reflexivity.
Defined.

Lemma order_within_a_group_is_irrelevant_witness :
  statistics (calculate_kruskal_wallis sf_markov [fin [2; 1]%Q; fin [3; 4]%Q]
                two_names (5 # 100) false)
  = statistics (calculate_kruskal_wallis sf_markov [fin [1; 2]%Q; fin [4; 3]%Q]
                  two_names (5 # 100) false).
Proof.
  apply (order_within_a_group_is_irrelevant sf_markov
           [fin [2; 1]%Q; fin [3; 4]%Q] [fin [1; 2]%Q; fin [4; 3]%Q]).
  constructor; [apply perm_swap|].
  constructor; [apply perm_swap|]. constructor.
Defined.

Lemma every_group_of_main_has_its_name_witness :
  valid_names [fin [1; 2]%Q; fin [3; 4]%Q] ["a"; "b"]%string
  = Return ["a"; "b"]%string.
Proof.
  exact (proj2 (proj2 (every_group_of_main_has_its_name
           [("a"%string, Numbers (fin [1; 2]%Q)); ("b"%string, Numbers (fin [3; 4]%Q))]
           eq_refl))).
Defined.
